(** * kubernetes-secret-generator: the reconciliation handler of [main.go]

    A shallow embedding of [generateSecret] and
    [GeneratorController.SecretAdded], with the properties of the
    reconciliation engine proved about it.

    Conventions of the embedding:
    - a Go [string] is a Rocq [string] (a sequence of bytes), [[]byte] is
      [list Byte.byte], [int] and [rune] are [Z];
    - a Go [map] is a nil-able finite map: [None] is the nil map, reading it
      finds nothing, deleting from it does nothing, assigning to it panics;
    - the handler runs in a state monad over [World], the part of the
      process and of its surroundings that [main.go] touches: the flag
      [secretLength], the bytes of [crypto/rand.Reader], the clock, the API
      server behind the client, and the [glog] output;
    - a Go panic is the [Panic] result of the monad; a Go [(T, error)] pair
      is a [result T]. *)

From Stdlib Require Import ZArith Ascii String List.
From Stdlib.Strings Require Import Byte.
From stdpp Require Import base option list gmap strings pretty.

Local Open Scope Z_scope.

(** ** Constants of [main.go] *)

Definition SecretGenerateAnnotation : string :=
  "secret-generator.v1.mittwald.de/autogenerate".
Definition SecretGeneratedAtAnnotation : string :=
  "secret-generator.v1.mittwald.de/autogenerate-generated-at".
Definition SecretRegenerateAnnotation : string :=
  "secret-generator.v1.mittwald.de/regenerate".

Definition alphabet : string :=
  "abcdefghijklmnopqrstuvwxyzABCDEFGHIJKLMNOPQRSTUVWXYZ0123456789".

(** [[]rune(s)] for a string of ASCII bytes: one rune per byte. *)
Definition runes_of_ascii (s : string) : list Z :=
  (λ a, Z.of_N (N_of_ascii a)) <$> list_ascii_of_string s.

(** [var runes = []rune("abc...789")] *)
Definition runes : list Z := runes_of_ascii alphabet.

(** ** Go values *)

Definition error := string.

Inductive result (T : Type) : Type :=
| Ok (v : T)
| Err (e : error).
Arguments Ok {T} v.
Arguments Err {T} e.

(** Go maps keyed by strings. *)
Module GoMap.
Definition t (V : Type) : Type := option (gmap string V).

Definition get {V} (m : t V) (k : string) : option V :=
  match m with
  | None => None
  | Some g => g !! k
  end.

(** [delete(m, k)] *)
Definition del {V} (m : t V) (k : string) : t V :=
  match m with
  | None => None
  | Some g => Some (delete k g)
  end.

(** [m[k] = v]; [None] stands for the run-time panic on a nil map. *)
Definition set {V} (m : t V) (k : string) (v : V) : option (t V) :=
  match m with
  | None => None
  | Some g => Some (Some (<[k := v]> g))
  end.
End GoMap.

(** The fields of [v1.Secret] (with its [ObjectMeta]) that matter to a
    reader of a record: identity, version token, metadata maps, payload. *)
Record Secret : Type := mkSecret {
  Name : string;
  Namespace : string;
  ResourceVersion : string;
  Labels : GoMap.t string;
  Annotations : GoMap.t string;
  Data : GoMap.t (list byte);
  Type_ : string
}.

Definition with_Annotations (a : GoMap.t string) (s : Secret) : Secret :=
  mkSecret (Name s) (Namespace s) (ResourceVersion s) (Labels s) a (Data s)
           (Type_ s).

Definition with_Data (d : GoMap.t (list byte)) (s : Secret) : Secret :=
  mkSecret (Name s) (Namespace s) (ResourceVersion s) (Labels s)
           (Annotations s) d (Type_ s).

Definition with_ResourceVersion (v : string) (s : Secret) : Secret :=
  mkSecret (Name s) (Namespace s) v (Labels s) (Annotations s) (Data s)
           (Type_ s).

(** What an informer hands to a handler: an [interface{}] value. *)
Inductive Obj : Type :=
| ObjSecret (s : Secret)
| ObjOther (kind : string).

(** ** The world of the handler *)

Inductive severity : Type := INFO | ERROR.

Inductive fmtarg : Type :=
| ArgS (s : string)
| ArgD (n : Z).

Record logline : Type := mkLog {
  log_severity : severity;
  log_format : string;
  log_args : list fmtarg
}.

(** One call of [Secrets(ns).Update(body)] with the server's answer. *)
Record apicall : Type := mkCall {
  call_namespace : string;
  call_body : Secret;
  call_reply : result Secret
}.

Record World : Type := mkWorld {
  (** the [-secret-length] flag *)
  secretLength : Z;
  (** the bytes that [crypto/rand.Reader] will deliver, [None] for a read
      that fails; an exhausted reader fails *)
  rand_Reader : list (option byte);
  (** the rendering of [time.Now()] *)
  time_Now : string;
  (** a failure of the object copier, when there is one *)
  scheme_fault : option error;
  (** a failure of the transport to the API server, when there is one *)
  api_fault : option error;
  (** the records the API server stores, by namespace and name *)
  etcd : gmap (string * string) Secret;
  (** the server's revision counter, source of version tokens *)
  revision : N;
  (** the update calls made so far, newest first *)
  api_calls : list apicall;
  (** the log written so far, newest first *)
  glog : list logline
}.

Definition with_rand_Reader (r : list (option byte)) (w : World) : World :=
  mkWorld (secretLength w) r (time_Now w) (scheme_fault w) (api_fault w)
          (etcd w) (revision w) (api_calls w) (glog w).

Definition with_glog (l : list logline) (w : World) : World :=
  mkWorld (secretLength w) (rand_Reader w) (time_Now w) (scheme_fault w)
          (api_fault w) (etcd w) (revision w) (api_calls w) l.

Definition with_server (e : gmap (string * string) Secret) (r : N)
    (c : list apicall) (w : World) : World :=
  mkWorld (secretLength w) (rand_Reader w) (time_Now w) (scheme_fault w)
          (api_fault w) e r c (glog w).

(** ** The monad: state over [World], with panics *)

Inductive Res (A : Type) : Type :=
| Ret (a : A)
| Panic (msg : string).
Arguments Ret {A} a.
Arguments Panic {A} msg.

Definition M (A : Type) : Type := World → Res A * World.

#[global] Instance M_ret : MRet M := λ A a w, (Ret a, w).

#[global] Instance M_bind : MBind M := λ A B f m w,
  match m w with
  | (Ret a, w') => f a w'
  | (Panic msg, w') => (Panic msg, w')
  end.

Definition panic {A} (msg : string) : M A := λ w, (Panic msg, w).

Definition gets {A} (f : World → A) : M A := λ w, (Ret (f w), w).

Definition modify (f : World → World) : M unit := λ w, (Ret tt, f w).

(** ** The surroundings: glog, crypto/rand, time, the client *)

Definition glog_Infof (fmt : string) (args : list fmtarg) : M unit :=
  modify (λ w, with_glog (mkLog INFO fmt args :: glog w) w).

Definition glog_Errorf (fmt : string) (args : list fmtarg) : M unit :=
  modify (λ w, with_glog (mkLog ERROR fmt args :: glog w) w).

(** [n.BitLen()] for [n : *big.Int] that is not negative *)
Definition BitLen (n : Z) : Z := if decide (n ≤ 0) then 0 else Z.log2 n + 1.

(** [n.SetBytes(bytes)]: the bytes as a big-endian number *)
Definition SetBytes (bytes : list Z) : Z :=
  foldl (λ acc b, acc * 256 + b) 0 bytes.

(** The loop of [io.ReadAtLeast]: [n] bytes are read, [k] are still to be
    read. A read gives the next byte of the reader or fails with its error;
    the reader at its end answers [io.EOF], which the loop turns into
    [io.ErrUnexpectedEOF] when it comes after some bytes and before all of
    them ([n > 0 && err == EOF]). *)
Fixpoint io_ReadAtLeast_from (n k : nat) (r : list (option byte))
    : result (list Z) * list (option byte) :=
  match k with
  | O => (Ok [], r)
  | S k' =>
      match r with
      | [] => (Err (if decide (n = 0%nat) then "EOF" else "unexpected EOF"), [])
      | None :: r' => (Err "read failed", r')
      | Some b :: r' =>
          let '(bytes, r'') := io_ReadAtLeast_from (S n) k' r' in
          (match bytes with
           | Ok bytes => Ok (Z.of_N (Byte.to_N b) :: bytes)
           | Err e => Err e
           end, r'')
      end
  end.

(** [io.ReadFull(rand, bytes)] with [k = len(bytes)]: the next [k] bytes of
    the reader, or the error of the read that fails; at the end of the
    reader [io.EOF] when no byte was read and [io.ErrUnexpectedEOF] after
    some of them. *)
Definition io_ReadFull (k : nat) (r : list (option byte))
    : result (list Z) * list (option byte) :=
  io_ReadAtLeast_from 0 k r.

(** The loop of [rand.Int]: read [k] bytes, clear the bits above the [b]
    lowest of the first byte, and return the number read when it is below
    [max]; otherwise read again. Every round takes bytes from the reader, so
    that [fuel] beyond the length of the reader is never used up (lemma
    [rand_Int_from_fuel]): the loop ends in a number or in the error of
    [io.ReadFull]. *)
Fixpoint rand_Int_from (fuel : nat) (max : Z) (k : nat) (b : Z)
    (r : list (option byte)) : result Z * list (option byte) :=
  match fuel with
  | O => (Err "EOF", r)
  | S fuel' =>
      match io_ReadFull k r with
      | (Err e, r') => (Err e, r')
      | (Ok bytes, r') =>
          let bytes :=
            match bytes with
            | [] => []
            | b0 :: bytes' => Z.land b0 (Z.shiftl 1 b - 1) :: bytes'
            end in
          let n := SetBytes bytes in
          if decide (n < max) then (Ok n, r')
          else rand_Int_from fuel' max k b r'
      end
  end.

(** [rand.Int(rand.Reader, max)], as in the [crypto/rand] of the Go
    releases the program was written for: rejection sampling over the
    bytes of the reader. *)
Definition rand_Int (max : Z) : M (result Z) :=
  if decide (max ≤ 0) then panic "crypto/rand: argument to Int is <= 0"
  else λ w,
    let k := Z.to_nat ((BitLen max + 7) / 8) in
    let b := if decide (BitLen max mod 8 = 0) then 8 else BitLen max mod 8 in
    let '(n, r') :=
      rand_Int_from (S (length (rand_Reader w))) max k b (rand_Reader w) in
    (Ret n, with_rand_Reader r' w).

(** [time.Now().String()] *)
Definition time_Now_String : M string := gets time_Now.

(** [c.client.Core().Secrets(ns).Update(body)]: a conditional update. The
    server accepts the body when it stores a record of that name whose
    version token is the body's, and stores it under a new token; every
    other call fails and leaves the stored records as they are. *)
Definition apiserver_Update (ns : string) (body : Secret) (w : World)
    : result Secret :=
  match api_fault w with
  | Some e => Err e
  | None =>
      match etcd w !! (ns, Name body) with
      | None => Err "not found"
      | Some cur =>
          if decide (ResourceVersion body = ResourceVersion cur)
          then Ok (with_ResourceVersion (pretty (N.succ (revision w))) body)
          else Err "conflict"
      end
  end.

Arguments apiserver_Update : simpl never.

Definition Secrets_Update (ns : string) (body : Secret) : M (result Secret) :=
  λ w,
    let reply := apiserver_Update ns body w in
    let calls := mkCall ns body reply :: api_calls w in
    match reply with
    | Ok stored =>
        (Ret reply,
         with_server (<[(ns, Name body) := stored]> (etcd w))
                     (N.succ (revision w)) calls w)
    | Err _ => (Ret reply, with_server (etcd w) (revision w) calls w)
    end.

(** Modelled from the spec: [util.CopyObjToSecret] is not part of
    [main.go]. Following "build an updated snapshot, starting from the
    received one (preserving its version token and all unrelated
    fields)", it returns a copy equal to the record it is given, which
    the handler may change without touching the original, or an error. *)
Definition CopyObjToSecret (obj : Secret) : M (result Secret) :=
  λ w,
    match scheme_fault w with
    | Some e => (Ret (Err e), w)
    | None => (Ret (Ok obj), w)
    end.

(** ** Strings from runes *)

Definition byte_char (b : Z) : ascii := ascii_of_N (Z.to_N b).

(** The UTF-8 encoding of one rune, as [string(rune)] produces it;
    surrogates and values out of range become U+FFFD. *)
Definition utf8_encode_rune (r : Z) : list ascii :=
  if decide (r < 0 ∨ 1114111 < r ∨ 55296 ≤ r ≤ 57343) then
    [byte_char 239; byte_char 191; byte_char 189]
  else if decide (r < 128) then
    [byte_char r]
  else if decide (r < 2048) then
    [byte_char (Z.lor 192 (Z.shiftr r 6));
     byte_char (Z.lor 128 (Z.land r 63))]
  else if decide (r < 65536) then
    [byte_char (Z.lor 224 (Z.shiftr r 12));
     byte_char (Z.lor 128 (Z.land (Z.shiftr r 6) 63));
     byte_char (Z.lor 128 (Z.land r 63))]
  else
    [byte_char (Z.lor 240 (Z.shiftr r 18));
     byte_char (Z.lor 128 (Z.land (Z.shiftr r 12) 63));
     byte_char (Z.lor 128 (Z.land (Z.shiftr r 6) 63));
     byte_char (Z.lor 128 (Z.land r 63))].

(** [string(b)] for [b []rune] *)
Definition string_of_runes (b : list Z) : string :=
  string_of_list_ascii (b ≫= utf8_encode_rune).

(** ** [generateSecret] *)

(** [make([]rune, length)]; memory is taken to be unbounded. *)
Definition make_runes (length : Z) : M (list Z) :=
  if decide (length < 0) then panic "makeslice: len out of range"
  else mret (replicate (Z.to_nat length) 0).

(** [runes[n]] *)
Definition runes_at (n : Z) : M Z :=
  match (if decide (0 ≤ n) then runes !! Z.to_nat n else None) with
  | Some c => mret c
  | None => panic "index out of range"
  end.

(** The loop [for i := range b]: [todo] iterations remain, the next one
    fills [b[i]]. *)
Fixpoint generateSecret_loop (todo : nat) (i : nat) (b : list Z)
    : M (result (list Z)) :=
  match todo with
  | O => mret (Ok b)
  | S todo' =>
      r ← rand_Int (Z.of_nat (length runes));
      match r with
      | Err err => mret (Err err)
      | Ok n =>
          c ← runes_at n;
          generateSecret_loop todo' (S i) (<[i := c]> b)
      end
  end.

Definition generateSecret (length : Z) : M (result string) :=
  b ← make_runes length;
  r ← generateSecret_loop (List.length b) 0%nat b;
  match r with
  | Err err => mret (Err err)
  | Ok b' => mret (Ok (string_of_runes b'))
  end.

(** ** [SecretAdded] *)

(** The type assertion of [obj] to a pointer to [v1.Secret] *)
Definition as_Secret (obj : Obj) : M Secret :=
  match obj with
  | ObjSecret s => mret s
  | ObjOther kind =>
      panic ("interface conversion: interface {} is " +:+ kind +:+
             ", not *v1.Secret")
  end.

(** [m[k] = v] as a statement *)
Definition assign {V} (m : GoMap.t V) (k : string) (v : V) : M (GoMap.t V) :=
  match GoMap.set m k v with
  | Some m' => mret m'
  | None => panic "assignment to entry in nil map"
  end.

Definition SecretAdded (obj : Obj) : M unit :=
  secret ← as_Secret obj;
  match GoMap.get (Annotations secret) SecretGenerateAnnotation with
  | None => mret tt
  | Some val =>
      glog_Infof "secret %s is autogenerated" [ArgS (Name secret)];;
      let regenerateNeeded := false in
      regenerateNeeded ←
        match GoMap.get (Annotations secret) SecretGeneratedAtAnnotation with
        | None =>
            glog_Infof "secret %s does not yet contain autogenerated property"
                       [ArgS (Name secret)];;
            mret true
        | Some _ => mret regenerateNeeded
        end;
      regenerateNeeded ←
        match GoMap.get (Annotations secret) SecretRegenerateAnnotation with
        | Some _ =>
            glog_Infof "regenerating of secret %s requested"
                       [ArgS (Name secret)];;
            mret true
        | None => mret regenerateNeeded
        end;
      if negb regenerateNeeded then
        glog_Infof "secret %s does not need updating" [ArgS (Name secret)]
      else
        copied ← CopyObjToSecret secret;
        match copied with
        | Err err =>
            glog_Errorf "could not copy secret %s: %s"
                        [ArgS (Name secret); ArgS err]
        | Ok secretCopy =>
            length ← gets secretLength;
            generated ← generateSecret length;
            match generated with
            | Err err =>
                glog_Errorf "could not generate new secret: %s" [ArgS err]
            | Ok newPassword =>
                annotations ←
                  match GoMap.get (Annotations secretCopy)
                                  SecretRegenerateAnnotation with
                  | Some _ =>
                      glog_Infof "removing annotation %s from secret %s"
                                 [ArgS SecretRegenerateAnnotation;
                                  ArgS (Name secret)];;
                      mret (GoMap.del (Annotations secretCopy)
                                      SecretRegenerateAnnotation)
                  | None => mret (Annotations secretCopy)
                  end;
                now ← time_Now_String;
                annotations ←
                  assign annotations SecretGeneratedAtAnnotation now;
                data ←
                  assign (Data secretCopy) val
                         (list_byte_of_string newPassword);
                let secretCopy :=
                  with_Data data (with_Annotations annotations secretCopy) in
                length ← gets secretLength;
                glog_Infof
                  "set value %s of secret %s to new randomly generated secret of %d bytes length"
                  [ArgS val; ArgS (Name secret); ArgD length];;
                updated ← Secrets_Update (Namespace secret) secretCopy;
                match updated with
                | Err err =>
                    glog_Errorf "could not add %s annotation to secret %s: %s"
                                [ArgS SecretGeneratedAtAnnotation;
                                 ArgS (Name secret); ArgS err]
                | Ok _ => mret tt
                end
            end
        end
  end.

(** [UpdateFunc: func(old, new) { gc.SecretAdded(new) }] *)
Definition SecretUpdated (old new : Obj) : M unit := SecretAdded new.

(** ** Observing a run *)

(** [n] deliveries of the same snapshot, one after the other. *)
Fixpoint deliveries (n : nat) (obj : Obj) : M unit :=
  match n with
  | O => mret tt
  | S n' => SecretAdded obj;; deliveries n' obj
  end.

(** The update calls made between the worlds [w] and [w'], oldest first. *)
Definition new_calls (w w' : World) : list apicall :=
  reverse (take (length (api_calls w') - length (api_calls w))%nat
                (api_calls w')).

(** [reconcile s w]: the snapshots that one run of the handler on [s]
    submits to the store. The empty list is the no-op. *)
Definition reconcile (s : Secret) (w : World) : list Secret :=
  call_body <$> new_calls w (snd (SecretAdded (ObjSecret s) w)).

(** The store is as it was: same records, same revision, no call made. *)
Definition store_untouched (w w' : World) : Prop :=
  etcd w' = etcd w ∧ revision w' = revision w ∧ api_calls w' = api_calls w.

(** The three readings of the control annotations. *)
Definition generate_target (s : Secret) : option string :=
  GoMap.get (Annotations s) SecretGenerateAnnotation.
Definition generated_at (s : Secret) : option string :=
  GoMap.get (Annotations s) SecretGeneratedAtAnnotation.
Definition regenerate_requested (s : Secret) : option string :=
  GoMap.get (Annotations s) SecretRegenerateAnnotation.

(** ** Notions used in the statements *)

(** What [rand.Int(rand.Reader, 62)] makes of one byte: its six low bits,
    accepted when below 62. *)
Definition candidate (b : byte) : Z := Z.land (Z.of_N (Byte.to_N b)) 63.

Definition accepted (b : byte) : Prop := candidate b < 62.

#[global] Instance accepted_dec (b : byte) : Decision (accepted b) :=
  Z.lt_dec (candidate b) 62.

(** The draw below 62 that a reader gives: the candidate of its first
    accepted byte. Every round reads into a buffer of one byte, so that the
    end of the reader is answered by [io.EOF]. *)
Fixpoint draw (r : list (option byte)) : result Z * list (option byte) :=
  match r with
  | [] => (Err "EOF", [])
  | None :: r' => (Err "read failed", r')
  | Some b :: r' =>
      if decide (accepted b) then (Ok (candidate b), r') else draw r'
  end.

#[global] Instance byte_eq_dec : EqDecision byte := Byte.byte_eq_dec.

(** The 256 bytes. *)
Definition all_bytes : list byte :=
  omap (λ n, Byte.of_N (N.of_nat n)) (seq 0 256).

(** The symbol that the draw [n] selects. *)
Definition rune_of (n : Z) : Z := default 0 (runes !! Z.to_nat n).

(** The characters of the alphabet. *)
Definition alphabet_chars : list ascii := list_ascii_of_string alphabet.

(** The record asks for a value: it is managed, and either no value was
    generated yet or a new one is requested. *)
Definition pending (s : Secret) : Prop :=
  is_Some (generate_target s) ∧
  (generated_at s = None ∨ is_Some (regenerate_requested s)).

(** The record is managed and holds a generated value nobody asked to
    replace. *)
Definition settled (s : Secret) : Prop :=
  is_Some (generate_target s) ∧ is_Some (generated_at s) ∧
  regenerate_requested s = None.

(** The snapshot that the handler builds from [s], the time [now] and the
    token [tok]. *)
Definition regenerated (s : Secret) (a : gmap string string)
    (d : gmap string (list byte)) (val now tok : string) : Secret :=
  with_Data (Some (<[val := list_byte_of_string tok]> d))
    (with_Annotations
       (Some (<[SecretGeneratedAtAnnotation := now]>
                (delete SecretRegenerateAnnotation a))) s).

(** [u] is the snapshot that a regeneration of [s] in the world [w]
    builds. *)
Definition regeneration (s : Secret) (w : World) (u : Secret) : Prop :=
  ∃ a d val tok w2,
    pending s ∧ Annotations s = Some a ∧ Data s = Some d ∧
    a !! SecretGenerateAnnotation = Some val ∧ scheme_fault w = None ∧
    generateSecret (secretLength w) w = (Ret (Ok tok), w2) ∧
    u = regenerated s a d val (time_Now w) tok.

(** An example world: the default length, a reader with bytes to spare,
    a server that stores the example records. *)
Definition example_bytes : list (option byte) :=
  (λ n, Byte.of_N (N.of_nat n)) <$> seq 17 64.

Definition unfilled_secret : Secret :=
  mkSecret "db" "default" "7" None
    (Some {[SecretGenerateAnnotation := "token"]}) (Some ∅) "Opaque".

Definition example_world : World :=
  mkWorld 40 example_bytes "2017-06-01 12:00:00.000000000 +0000 UTC" None None
    {[("default", "db") := unfilled_secret]} 7 [] [].

(** A settled record whose value is forty times the first symbol, with a
    regeneration request, and a reader whose bytes all select that
    symbol. *)
Definition forty_a : string := string_of_list_ascii (replicate 40 "a"%char).

Definition requested_secret : Secret :=
  mkSecret "db" "default" "8" None
    (Some {[SecretGenerateAnnotation := "password";
            SecretGeneratedAtAnnotation := "2017-06-01 12:00:00 +0000 UTC";
            SecretRegenerateAnnotation := "yes"]})
    (Some {["password" := list_byte_of_string forty_a]}) "Opaque".

Definition repeating_world : World :=
  mkWorld 40 (replicate 40 (Some x40)) "2017-06-02 12:00:00 +0000 UTC" None None
    {[("default", "db") := requested_secret]} 8 [] [].

(** The token generator fails in the world [w]. *)
Definition generation_fails (w : World) : Prop :=
  ∃ e, fst (generateSecret (secretLength w) w) = Ret (Err e).

(** The run of the handler on [s] in [w] makes an update call that the
    server answers with an error. *)
Definition write_fails (s : Secret) (w : World) : Prop :=
  ∃ c e, c ∈ new_calls w (snd (SecretAdded (ObjSecret s) w)) ∧
         call_reply c = Err e.

(** The string of the symbols selected by a list of draws. *)
Definition token_of (ds : list Z) : string := string_of_runes (rune_of <$> ds).

(** The character at the index of a draw. *)
Definition char_of (n : Z) : ascii :=
  default "000"%char (alphabet_chars !! Z.to_nat n).

(** Two records carry the same control keys. *)
Definition same_presence (s s' : Secret) : Prop :=
  (is_Some (generate_target s) ↔ is_Some (generate_target s')) ∧
  (is_Some (generated_at s) ↔ is_Some (generated_at s')) ∧
  (is_Some (regenerate_requested s) ↔ is_Some (regenerate_requested s')).

(** What makes a run submit a snapshot. *)
Definition regenerates (s : Secret) (w : World) : Prop :=
  pending s ∧ is_Some (Data s) ∧ scheme_fault w = None ∧
  ∃ tok, fst (generateSecret (secretLength w) w) = Ret (Ok tok).

(** The token selected by the first forty bytes of the example reader, all
    accepted, and the snapshot built from it. *)
Definition example_token : string := token_of (Z.of_nat <$> seq 17 40).

Definition filled_secret : Secret :=
  regenerated unfilled_secret {[SecretGenerateAnnotation := "token"]} ∅
    "token" (time_Now example_world) example_token.

Definition drawn_world : World :=
  with_rand_Reader (drop 40 example_bytes) example_world.

(** A record that is not managed, though it carries a regeneration
    request. *)
Definition plain_secret : Secret :=
  mkSecret "tls" "default" "3" None
    (Some {[SecretRegenerateAnnotation := "yes"]}) (Some ∅) "Opaque".

(** A world whose reader fails at the second read, and one whose server
    cannot be reached. *)
Definition dry_world : World :=
  mkWorld 40 [Some x05; None] "2017-06-01 12:00:00 +0000 UTC" None None
    {[("default", "db") := unfilled_secret]} 7 [] [].

Definition unreachable_world : World :=
  mkWorld 40 example_bytes "2017-06-01 12:00:00 +0000 UTC" None
    (Some "connection refused") {[("default", "db") := unfilled_secret]} 7
    [] [].

(** A record whose three control annotations are empty strings. *)
Definition empty_values_secret : Secret :=
  mkSecret "db" "default" "9" None
    (Some {[SecretGenerateAnnotation := EmptyString;
            SecretGeneratedAtAnnotation := EmptyString;
            SecretRegenerateAnnotation := EmptyString]})
    (Some ∅) "Opaque".

(** ** The handlers registered in [main] *)

(** A notification of the informer: an object added, an object updated
    (the old and the new state), an object deleted. *)
Inductive event : Type :=
| Added (obj : Obj)
| Updated (old new : Obj)
| Deleted (obj : Obj).

(** [DeleteFunc: func(new interface{}) {}] *)
Definition SecretDeleted (obj : Obj) : M unit := mret tt.

(** [cache.ResourceEventHandlerFuncs{AddFunc, UpdateFunc, DeleteFunc}]: the
    handler that a notification goes to. *)
Definition handle (ev : event) : M unit :=
  match ev with
  | Added obj => SecretAdded obj
  | Updated old new => SecretUpdated old new
  | Deleted obj => SecretDeleted obj
  end.

(** The notifications of a run of the controller, handled one after the
    other; a panic ends the run. *)
Fixpoint handle_all (evs : list event) : M unit :=
  match evs with
  | [] => mret tt
  | ev :: evs' => handle ev;; handle_all evs'
  end.

(** A notification that is not a deletion. *)
Definition is_delivery (ev : event) : bool :=
  match ev with
  | Deleted _ => false
  | _ => true
  end.

(** A notification that asks for nothing: a deletion, or the addition or
    update of a record that is not managed or is settled. *)
Definition quiet_record (s : Secret) : Prop :=
  generate_target s = None ∨ settled s.

Definition quiet (ev : event) : Prop :=
  match ev with
  | Added (ObjSecret s) => quiet_record s
  | Updated _ (ObjSecret s) => quiet_record s
  | Deleted _ => True
  | _ => False
  end.

(** ** Notions for the reader *)

(** The accepted bytes that a reader delivers before its first failing
    read. *)
Fixpoint usable (r : list (option byte)) : list byte :=
  match r with
  | Some b :: r' => if decide (accepted b) then b :: usable r' else usable r'
  | _ => []
  end.

(** The error of a reader that gives out: the failing read when there is
    one, the end of the input ([io.EOF]) otherwise. *)
Definition reader_error (r : list (option byte)) : error :=
  if decide (None ∈ r) then "read failed" else "EOF".

(** ** More example records and worlds *)

(** The example world with one more byte, not accepted, ahead of the
    others. *)
Definition noisy_world : World :=
  with_rand_Reader (Some x3e :: example_bytes) example_world.

(** Worlds with a negative length, with the length zero, and with a copier
    that fails. *)
Definition negative_world : World :=
  mkWorld (-1) example_bytes "2017-06-01 12:00:00 +0000 UTC" None None
    {[("default", "db") := unfilled_secret]} 7 [] [].

Definition zero_world : World :=
  mkWorld 0 example_bytes "2017-06-01 12:00:00 +0000 UTC" None None
    {[("default", "db") := unfilled_secret]} 7 [] [].

Definition uncopyable_world : World :=
  mkWorld 40 example_bytes "2017-06-01 12:00:00 +0000 UTC"
    (Some "no copier for the type") None
    {[("default", "db") := unfilled_secret]} 7 [] [].

(** A record that asks for a value and has no Data map. *)
Definition bare_secret : Secret :=
  mkSecret "db" "default" "7" None
    (Some {[SecretGenerateAnnotation := "token"]}) None "Opaque".

(** A world whose server does not store the example record. *)
Definition forgetful_world : World :=
  mkWorld 40 example_bytes "2017-06-01 12:00:00 +0000 UTC" None None
    ∅ 7 [] [].

(** A world whose reader holds three bytes, the second of them not
    accepted, and then ends; the length asked for is two. *)
Definition interleaved_world : World :=
  mkWorld 2 [Some x00; Some x3e; Some x01] "2017-06-01 12:00:00 +0000 UTC"
    None None {[("default", "db") := unfilled_secret]} 7 [] [].

(** A world whose reader ends, without a failing read, after one byte. *)
Definition short_world : World :=
  mkWorld 40 [Some x05] "2017-06-01 12:00:00 +0000 UTC" None None
    {[("default", "db") := unfilled_secret]} 7 [] [].

(** The example world with bytes for more than two tokens. *)
Definition ample_world : World :=
  with_rand_Reader (example_bytes ++ example_bytes) example_world.

(** Notifications that ask for nothing. *)
Definition quiet_events : list event :=
  [Deleted (ObjSecret unfilled_secret);
   Added (ObjSecret plain_secret);
   Updated (ObjSecret unfilled_secret) (ObjSecret filled_secret)].

(** * Properties *)

Ltac run := unfold mbind, M_bind, mret, M_ret, glog_Infof, glog_Errorf,
  modify, gets, time_Now_String, CopyObjToSecret, panic; simpl.

Lemma store_untouched_refl w : store_untouched w w.
Proof. by repeat split. Qed.

Lemma store_untouched_trans w1 w2 w3 :
  store_untouched w1 w2 → store_untouched w2 w3 → store_untouched w1 w3.
Proof. unfold store_untouched. intros (-> & -> & ->) (-> & -> & ->). done. Qed.

Lemma store_untouched_glog l w : store_untouched w (with_glog l w).
Proof. by repeat split. Qed.

Lemma new_calls_same w w' : api_calls w' = api_calls w → new_calls w w' = [].
Proof. unfold new_calls. intros ->. by rewrite Nat.sub_diag. Qed.

Lemma SecretAdded_unmanaged s w :
  generate_target s = None → SecretAdded (ObjSecret s) w = (Ret tt, w).
Proof.
  unfold generate_target. intros H. unfold SecretAdded. run. by rewrite H.
Qed.

(** An update event is handled as an addition of the new object. *)
Lemma SecretUpdated_SecretAdded old new w :
  SecretUpdated old new w = SecretAdded new w.
Proof. reflexivity. Qed.

(** ** The token generator *)

Lemma with_rand_Reader_id w : with_rand_Reader (rand_Reader w) w = w.
Proof. by destruct w. Qed.

Lemma candidate_range b : 0 ≤ candidate b < 64.
Proof.
  unfold candidate. split.
  - apply Z.land_nonneg. right. lia.
  - change 63 with (Z.ones 6). rewrite Z.land_ones by lia.
    apply Z.mod_pos_bound. lia.
Qed.

(** A round of [rand.Int] that reads at least one byte leaves a shorter
    reader, so the loop stops before the fuel does: any two amounts of fuel
    beyond the length of the reader give the same result. *)
Lemma io_ReadAtLeast_from_shorter k : ∀ n r bytes r',
  (1 ≤ k)%nat → io_ReadAtLeast_from n k r = (Ok bytes, r') →
  (length r' < length r)%nat.
Proof.
  induction k as [|k IH]; intros n r bytes r' Hk; [lia|].
  destruct r as [|[b|] r]; simpl; [done| |done].
  destruct (io_ReadAtLeast_from (S n) k r) as [[bs|e] r''] eqn:E; [|done].
  intros [= <- <-]. destruct k as [|k].
  - simpl in E. injection E as <- <-. lia.
  - apply IH in E; lia.
Qed.

Lemma io_ReadFull_shorter k r bytes r' :
  (1 ≤ k)%nat → io_ReadFull k r = (Ok bytes, r') → (length r' < length r)%nat.
Proof. apply io_ReadAtLeast_from_shorter. Qed.

(** The end of the reader, for [io.ReadFull]: [io.EOF] before the first
    byte, [io.ErrUnexpectedEOF] after some bytes and before all of them. *)
Lemma io_ReadFull_EOF k : (1 ≤ k)%nat → io_ReadFull k [] = (Err "EOF", []).
Proof. intros Hk. by destruct k; [lia|]. Qed.

Lemma io_ReadAtLeast_from_short bs : ∀ n k,
  (length bs < k)%nat →
  io_ReadAtLeast_from n k (Some <$> bs) =
    (Err (if decide ((n + length bs)%nat = 0%nat) then "EOF"
          else "unexpected EOF"), []).
Proof.
  induction bs as [|b bs IH]; intros n [|k] Hk; simpl in *; try lia.
  - by rewrite Nat.add_0_r.
  - rewrite IH by lia. by rewrite Nat.add_succ_r.
Qed.

Lemma io_ReadFull_unexpected_EOF k bs :
  (1 ≤ length bs < k)%nat →
  io_ReadFull k (Some <$> bs) = (Err "unexpected EOF", []).
Proof.
  intros Hk. unfold io_ReadFull. rewrite io_ReadAtLeast_from_short by lia.
  by rewrite decide_False by lia.
Qed.

Lemma rand_Int_from_fuel max k b : ∀ fuel fuel' r,
  (1 ≤ k)%nat → (length r < fuel)%nat → (length r < fuel')%nat →
  rand_Int_from fuel max k b r = rand_Int_from fuel' max k b r.
Proof.
  induction fuel as [|fuel IH]; intros [|fuel'] r Hk Hf Hf'; try lia.
  cbn [rand_Int_from].
  destruct (io_ReadFull k r) as [[bytes|e] r'] eqn:E; [|done].
  apply io_ReadFull_shorter in E; [|done].
  case_decide; [done|]. apply IH; [done|lia..].
Qed.

Lemma BitLen_positive max : 0 < max → (1 ≤ Z.to_nat ((BitLen max + 7) / 8))%nat.
Proof.
  intros H. unfold BitLen. rewrite decide_False by lia.
  pose proof (Z.log2_nonneg max).
  assert (1 ≤ (Z.log2 max + 1 + 7) / 8); [|lia].
  apply Z.div_le_lower_bound; lia.
Qed.

(** With one byte per round and six bits kept, the loop of [rand.Int] is
    [draw], whatever fuel beyond the length of the reader it is given. *)
Lemma rand_Int_from_draw r : ∀ fuel,
  (length r < fuel)%nat → rand_Int_from fuel 62 1 6 r = draw r.
Proof.
  induction r as [|[b|] r IH]; intros [|fuel] Hf; simpl in Hf; try lia.
  - done.
  - cbn [rand_Int_from io_ReadFull io_ReadAtLeast_from draw].
    change (SetBytes [Z.land (Z.of_N (Byte.to_N b)) (Z.shiftl 1 6 - 1)])
      with (0 * 256 + candidate b).
    rewrite Z.mul_0_l, Z.add_0_l.
    destruct (decide (accepted b)) as [H|H]; unfold accepted in H.
    + by rewrite decide_True.
    + rewrite decide_False by done. apply IH. lia.
  - done.
Qed.

Lemma rand_Int_62 w :
  rand_Int (Z.of_nat (length runes)) w =
    (Ret (fst (draw (rand_Reader w))),
     with_rand_Reader (snd (draw (rand_Reader w))) w).
Proof.
  unfold rand_Int. change (Z.of_nat (length runes)) with 62.
  rewrite decide_False by lia.
  change (Z.to_nat ((BitLen 62 + 7) / 8)) with 1%nat.
  change (if decide (BitLen 62 mod 8 = 0) then 8 else BitLen 62 mod 8) with 6.
  rewrite rand_Int_from_draw by lia.
  by destruct (draw (rand_Reader w)).
Qed.

Lemma draw_range r n r' : draw r = (Ok n, r') → 0 ≤ n < 62.
Proof.
  induction r as [|[b|] r IH]; simpl; [done| |done].
  case_decide as H; [|done]. intros [= <- <-].
  pose proof (candidate_range b). unfold accepted in H. lia.
Qed.

Lemma draw_accept b r :
  accepted b → draw (Some b :: r) = (Ok (candidate b), r).
Proof. intros H. simpl. by rewrite decide_True. Qed.

Lemma draw_reject b r : ¬ accepted b → draw (Some b :: r) = draw r.
Proof. intros H. simpl. by rewrite decide_False. Qed.

Lemma runes_length : length runes = 62%nat.
Proof. reflexivity. Qed.

Lemma runes_at_ok n w :
  0 ≤ n < 62 → ∃ c, runes_at n w = (Ret c, w) ∧ runes !! Z.to_nat n = Some c.
Proof.
  intros H. unfold runes_at. rewrite decide_True by lia.
  destruct (runes !! Z.to_nat n) as [c|] eqn:E; [by exists c|].
  apply lookup_ge_None in E. rewrite runes_length in E. lia.
Qed.

Lemma runes_at_pure n : ∃ r, ∀ w, runes_at n w = (r, w).
Proof.
  unfold runes_at.
  destruct (if decide (0 ≤ n) then runes !! Z.to_nat n else None);
    eexists; intros w; run; reflexivity.
Qed.

(** The loop reads the reader and nothing else, and changes nothing else. *)
Lemma generateSecret_loop_frame todo : ∀ i b w, ∃ rd,
  ∀ w2, rand_Reader w2 = rand_Reader w →
    generateSecret_loop todo i b w2 =
      (fst (generateSecret_loop todo i b w), with_rand_Reader rd w2).
Proof.
  induction todo as [|todo IH]; intros i b w.
  - exists (rand_Reader w). intros w2 <-. simpl. run.
    by rewrite with_rand_Reader_id.
  - cbn [generateSecret_loop]. unfold mbind, M_bind.
    destruct (draw (rand_Reader w)) as [[n|e] rd] eqn:E.
    + destruct (runes_at_pure n) as [[c|msg] Hc].
      * destruct (IH (S i) (<[i:=c]> b) (with_rand_Reader rd w)) as [rd' H'].
        exists rd'. intros w2 Hw2. rewrite !rand_Int_62, Hw2, E. simpl.
        rewrite !Hc. by rewrite (H' (with_rand_Reader rd w2) eq_refl).
      * exists rd. intros w2 Hw2. rewrite !rand_Int_62, Hw2, E. simpl.
        by rewrite !Hc.
    + exists rd. intros w2 Hw2. by rewrite !rand_Int_62, Hw2, E.
Qed.

Lemma generateSecret_frame L w : ∃ rd,
  ∀ w2, rand_Reader w2 = rand_Reader w →
    generateSecret L w2 = (fst (generateSecret L w), with_rand_Reader rd w2).
Proof.
  unfold generateSecret, make_runes. case_decide.
  - exists (rand_Reader w). intros w2 <-. run. by rewrite with_rand_Reader_id.
  - set (b := replicate (Z.to_nat L) 0).
    destruct (generateSecret_loop_frame (length b) 0 b w) as [rd Hrd].
    exists rd. intros w2 Hw2. unfold mbind, M_bind, mret, M_ret.
    rewrite (Hrd w2 Hw2), (Hrd w eq_refl).
    by destruct (fst (generateSecret_loop (length b) 0 b w)) as [[b'|e]|msg].
Qed.

Lemma runes_at_rune_of n w :
  0 ≤ n < 62 → runes_at n w = (Ret (rune_of n), w) ∧ rune_of n ∈ runes.
Proof.
  intros H. destruct (runes_at_ok n w H) as (c & Hc & Hl).
  unfold rune_of. rewrite Hl. split; [done|].
  eapply list_elem_of_lookup_2, Hl.
Qed.

(** Invariant of the loop: the cells below [i] are kept, the cells from [i]
    on receive symbols of the alphabet. *)
Lemma generateSecret_loop_shape todo : ∀ i b w b' w',
  generateSecret_loop todo i b w = (Ret (Ok b'), w') →
  (i + todo)%nat = length b →
  length b' = length b ∧
  ∀ j c, b' !! j = Some c → (j < i)%nat ∧ b !! j = Some c ∨
                             (i ≤ j)%nat ∧ c ∈ runes.
Proof.
  induction todo as [|todo IH]; intros i b w b' w'.
  - simpl. run. intros [= <- <-] Hlen. split; [done|].
    intros j c Hj. left. split; [|done].
    apply lookup_lt_Some in Hj. lia.
  - cbn [generateSecret_loop]. unfold mbind, M_bind. rewrite rand_Int_62.
    destruct (draw (rand_Reader w)) as [[n|e] rd] eqn:E; [|by run].
    apply draw_range in E. cbn [fst snd].
    destruct (runes_at_rune_of n (with_rand_Reader rd w)) as [-> Hin]; [lia|].
    intros Hrun Hlen.
    apply IH in Hrun as [Hl Hcells]; [|rewrite length_insert; lia].
    rewrite length_insert in Hl. split; [done|].
    intros j c Hj. destruct (Hcells j c Hj) as [[Hlt Hb]|[Hge Hc]].
    + destruct (decide (j = i)) as [->|Hne].
      * right. split; [lia|].
        rewrite list_lookup_insert_eq in Hb by lia. by injection Hb as <-.
      * left. rewrite list_lookup_insert_ne in Hb by done. split; [lia|done].
    + right. split; [lia|done].
Qed.

(** With the accepted bytes [bs] at the head of the reader, the loop fills
    the cells [i], [i+1], ... with the symbols that their candidates
    select. *)
Lemma generateSecret_loop_draws bs : ∀ i b w rest,
  Forall accepted bs →
  rand_Reader w = (Some <$> bs) ++ rest →
  (i + length bs ≤ length b)%nat →
  generateSecret_loop (length bs) i b w =
    (Ret (Ok (take i b ++ (rune_of <$> (candidate <$> bs)) ++
              drop (i + length bs) b)),
     with_rand_Reader rest w).
Proof.
  induction bs as [|c bs IH]; intros i b w rest Hbs Hrd Hlen.
  - simpl in *. run. rewrite Nat.add_0_r, take_drop.
    by rewrite <- Hrd, with_rand_Reader_id.
  - apply Forall_cons in Hbs as [Hc Hbs]. simpl in Hlen.
    cbn [length generateSecret_loop]. unfold mbind, M_bind.
    rewrite rand_Int_62, Hrd. cbn [fmap list_fmap app].
    rewrite draw_accept by done. cbn [fst snd].
    pose proof (candidate_range c). unfold accepted in Hc.
    destruct (runes_at_rune_of (candidate c)
                (with_rand_Reader ((Some <$> bs) ++ rest) w)) as [-> _]; [lia|].
    rewrite (IH (S i) (<[i:=rune_of (candidate c)]> b)
               (with_rand_Reader ((Some <$> bs) ++ rest) w) rest Hbs eq_refl)
      by (rewrite length_insert; lia).
    f_equal. f_equal. f_equal.
    rewrite (take_S_r _ _ (rune_of (candidate c)))
      by (apply list_lookup_insert_eq; lia).
    rewrite take_insert_ge by lia.
    rewrite drop_insert_lt by lia.
    rewrite <- app_assoc. simpl. by rewrite Nat.add_succ_r.
Qed.

(** Every symbol of [runes] is encoded by one byte, its character. *)
Lemma runes_encode :
  Forall2 (λ r a, utf8_encode_rune r = [a]) runes alphabet_chars.
Proof. repeat constructor. Qed.

Lemma rune_encode r :
  r ∈ runes → ∃ a, utf8_encode_rune r = [a] ∧ a ∈ alphabet_chars.
Proof.
  intros Hr. apply list_elem_of_lookup in Hr as [i Hi].
  destruct (Forall2_lookup_l _ _ _ _ _ runes_encode Hi) as (a & Ha & Henc).
  exists a. split; [done|]. eapply list_elem_of_lookup_2, Ha.
Qed.

Lemma string_of_runes_alphabet b :
  Forall (λ r, r ∈ runes) b →
  String.length (string_of_runes b) = length b ∧
  Forall (λ a, a ∈ alphabet_chars) (list_ascii_of_string (string_of_runes b)).
Proof.
  unfold string_of_runes. rewrite list_ascii_of_string_of_list_ascii.
  induction 1 as [|r b Hr _ [IHl IHf]]; [by split|].
  destruct (rune_encode r Hr) as (a & Ha & Hin).
  cbn [mbind list_bind]. rewrite Ha. simpl. split.
  - by rewrite IHl.
  - by constructor.
Qed.

(** A token that [generateSecret] returns has the length asked for and
    consists of characters of the alphabet. *)
Lemma generateSecret_token L w tok w' :
  generateSecret L w = (Ret (Ok tok), w') →
  0 ≤ L ∧ String.length tok = Z.to_nat L ∧
  Forall (λ a, a ∈ alphabet_chars) (list_ascii_of_string tok).
Proof.
  unfold generateSecret, make_runes. case_decide; [by run|].
  unfold mbind at 1. unfold M_bind at 1. unfold mret at 1. unfold M_ret at 1.
  unfold mbind, M_bind.
  destruct (generateSecret_loop _ _ _ _) as [[[b'|e]|msg] w2] eqn:E;
    [|by run..].
  run. intros [= <- <-].
  apply generateSecret_loop_shape in E as [Hl Hcells];
    [|by rewrite length_replicate].
  rewrite length_replicate in Hl.
  destruct (string_of_runes_alphabet b') as [Hlen Hall].
  { apply Forall_lookup. intros j c Hj.
    destruct (Hcells j c Hj) as [[Hlt _]|[_ Hc]]; [lia|done]. }
  split; [lia|]. split; [congruence|done].
Qed.

(** With the accepted bytes [bs] at the head of the reader, the token is
    the string of the symbols that their candidates select, in order. *)
Lemma generateSecret_draws L bs w rest :
  0 ≤ L → length bs = Z.to_nat L →
  Forall accepted bs →
  rand_Reader w = (Some <$> bs) ++ rest →
  generateSecret L w =
    (Ret (Ok (token_of (candidate <$> bs))), with_rand_Reader rest w).
Proof.
  intros HL Hlen Hbs Hrd. unfold generateSecret, make_runes, token_of.
  rewrite decide_False by lia.
  unfold mbind at 1. unfold M_bind at 1. unfold mret at 1. unfold M_ret at 1.
  unfold mbind, M_bind. rewrite length_replicate, <- Hlen.
  rewrite (generateSecret_loop_draws bs 0 _ w rest Hbs Hrd)
    by (rewrite length_replicate; lia).
  run. rewrite drop_ge by (rewrite length_replicate; lia).
  by rewrite app_nil_r.
Qed.

(** ** The usable bytes of the reader *)

Lemma draw_usable_cons r b us :
  usable r = b :: us →
  ∃ r', draw r = (Ok (candidate b), r') ∧ usable r' = us ∧
        reader_error r' = reader_error r ∧ r' `suffix_of` r.
Proof.
  induction r as [|[c|] r IH]; simpl; [done| |done].
  case_decide as Hc.
  - intros [= -> <-]. exists r. split; [done|]. split; [done|]. split.
    + unfold reader_error. apply decide_ext. rewrite elem_of_cons.
      intuition discriminate.
    + by apply suffix_cons_r.
  - intros Hu. destruct (IH Hu) as (r' & Hd & Hus & He & Hs).
    exists r'. split; [done|]. split; [done|]. split.
    + rewrite He. unfold reader_error. apply decide_ext.
      rewrite elem_of_cons. intuition discriminate.
    + by apply suffix_cons_r.
Qed.

Lemma draw_usable_nil r :
  usable r = [] → ∃ r', draw r = (Err (reader_error r), r') ∧ r' `suffix_of` r.
Proof.
  induction r as [|[c|] r IH]; simpl.
  - intros _. exists []. split; [|done]. unfold reader_error.
    rewrite decide_False; [done|]. apply not_elem_of_nil.
  - case_decide as Hc; [done|]. intros Hu.
    destruct (IH Hu) as (r' & -> & Hs). exists r'. split.
    + do 2 f_equal. unfold reader_error. apply decide_ext.
      rewrite elem_of_cons. intuition discriminate.
    + by apply suffix_cons_r.
  - intros _. exists r. split; [|by apply suffix_cons_r].
    unfold reader_error. rewrite decide_True; [done|]. apply list_elem_of_here.
Qed.

Lemma accepted_candidate b : accepted b → 0 ≤ candidate b < 62.
Proof. unfold accepted. pose proof (candidate_range b). lia. Qed.

(** The loop against the usable bytes: with [todo] of them at hand the cells
    are filled from them; with fewer the loop ends with the error of the
    reader. *)
Lemma generateSecret_loop_usable todo : ∀ i b w,
  (i + todo ≤ length b)%nat →
  (todo ≤ length (usable (rand_Reader w)))%nat →
  fst (generateSecret_loop todo i b w) =
    Ret (Ok (take i b ++
             (rune_of <$> (candidate <$> take todo (usable (rand_Reader w)))) ++
             drop (i + todo) b)).
Proof.
  induction todo as [|todo IH]; intros i b w Hlen Hus.
  - simpl. run. by rewrite Nat.add_0_r, take_drop.
  - destruct (usable (rand_Reader w)) as [|c us] eqn:Eu; [simpl in Hus; lia|].
    destruct (draw_usable_cons _ _ _ Eu) as (r' & Hd & Hus' & _ & _).
    assert (Hc : accepted c).
    { assert (c ∈ usable (rand_Reader w)) as Hin
        by (rewrite Eu; apply list_elem_of_here).
      clear -Hin. induction (rand_Reader w) as [|[x|] r IHr]; simpl in Hin;
        [by apply elem_of_nil in Hin| |by apply elem_of_nil in Hin].
      case_decide; [|by apply IHr].
      apply elem_of_cons in Hin as [->|Hin]; [done|by apply IHr]. }
    cbn [generateSecret_loop]. unfold mbind, M_bind.
    rewrite rand_Int_62, Hd. cbn [fst snd].
    destruct (runes_at_rune_of (candidate c) (with_rand_Reader r' w))
      as [-> _]; [by apply accepted_candidate|].
    rewrite (IH (S i) (<[i:=rune_of (candidate c)]> b) (with_rand_Reader r' w))
      by (rewrite ?length_insert; simpl in *; rewrite ?Hus'; lia).
    cbn [with_rand_Reader rand_Reader]. rewrite Hus'.
    do 2 f_equal.
    rewrite (take_S_r _ _ (rune_of (candidate c)))
      by (apply list_lookup_insert_eq; lia).
    rewrite take_insert_ge by lia.
    rewrite drop_insert_lt by lia.
    rewrite <- app_assoc. simpl. by rewrite Nat.add_succ_r.
Qed.

Lemma generateSecret_loop_starved todo : ∀ i b w,
  (length (usable (rand_Reader w)) < todo)%nat →
  fst (generateSecret_loop todo i b w) =
    Ret (Err (reader_error (rand_Reader w))).
Proof.
  induction todo as [|todo IH]; intros i b w Hus; [lia|].
  cbn [generateSecret_loop]. unfold mbind, M_bind. rewrite rand_Int_62.
  destruct (usable (rand_Reader w)) as [|c us] eqn:Eu.
  - destruct (draw_usable_nil _ Eu) as (r' & -> & _). done.
  - destruct (draw_usable_cons _ _ _ Eu) as (r' & Hd & Hus' & He & _).
    assert (Hc : 0 ≤ candidate c < 62).
    { pose proof (draw_range _ _ _ Hd). done. }
    rewrite Hd. cbn [fst snd].
    destruct (runes_at_rune_of (candidate c) (with_rand_Reader r' w))
      as [-> _]; [done|].
    rewrite IH by (cbn [with_rand_Reader rand_Reader]; rewrite Hus';
                   simpl in Hus; lia).
    cbn [with_rand_Reader rand_Reader]. by rewrite He.
Qed.

Lemma usable_accepted r : Forall accepted (usable r).
Proof.
  induction r as [|[c|] r IH]; simpl; [done| |done].
  case_decide; [by constructor|done].
Qed.

Lemma draw_suffix r : snd (draw r) `suffix_of` r.
Proof.
  induction r as [|[c|] r IH]; simpl; [done| |by apply suffix_cons_r].
  case_decide; by apply suffix_cons_r.
Qed.

Lemma generateSecret_loop_suffix todo : ∀ i b w,
  rand_Reader (snd (generateSecret_loop todo i b w)) `suffix_of` rand_Reader w.
Proof.
  induction todo as [|todo IH]; intros i b w; [done|].
  cbn [generateSecret_loop]. unfold mbind, M_bind. rewrite rand_Int_62.
  pose proof (draw_suffix (rand_Reader w)) as Hs.
  destruct (draw (rand_Reader w)) as [[n|e] rd]; cbn [fst snd] in *; [|done].
  destruct (runes_at_pure n) as [[c|msg] Hc]; rewrite Hc; [|done].
  etrans; [apply IH|]. done.
Qed.

Lemma candidates_in_range bs :
  Forall accepted bs → Forall (λ n, 0 ≤ n < 62) (candidate <$> bs).
Proof.
  intros H. apply Forall_fmap. eapply Forall_impl; [exact H|].
  intros b Hb. by apply accepted_candidate.
Qed.

Lemma generateSecret_usable (L : Z) (w : World) :
  0 ≤ L →
  (Z.to_nat L ≤ length (usable (rand_Reader w)))%nat →
  fst (generateSecret L w) =
    Ret (Ok (token_of (candidate <$>
                         take (Z.to_nat L) (usable (rand_Reader w))))).
Proof.
  intros HL Hus. unfold generateSecret, make_runes.
  rewrite decide_False by lia.
  unfold mbind, M_bind, mret, M_ret. cbv beta iota.
  rewrite length_replicate.
  pose proof (generateSecret_loop_usable (Z.to_nat L) 0
                (replicate (Z.to_nat L) 0) w) as Hloop.
  rewrite length_replicate in Hloop. specialize (Hloop (le_n _) Hus).
  destruct (generateSecret_loop _ _ _ _) as [r w']. simpl in Hloop. subst r.
  cbn [fst]. do 2 f_equal.
  rewrite drop_ge by (rewrite length_replicate; lia).
  by rewrite app_nil_r.
Qed.

(** ** The paths of the handler *)

Lemma with_glog_glog l l' w : with_glog l (with_glog l' w) = with_glog l w.
Proof. reflexivity. Qed.

Lemma with_rand_Reader_glog r l w :
  with_rand_Reader r (with_glog l w) = with_glog l (with_rand_Reader r w).
Proof. reflexivity. Qed.

Lemma with_server_glog e r c l w :
  with_server e r c (with_glog l w) = with_glog l (with_server e r c w).
Proof. reflexivity. Qed.

(** Close a goal that states the final world up to the lines logged: move
    the log to the outside and compare what is below it. *)
Ltac logged :=
  simpl;
  repeat (rewrite with_glog_glog || rewrite with_rand_Reader_glog ||
          rewrite with_server_glog);
  repeat eexists; reflexivity.

(** The answer of the server depends on the server alone: read it in the
    world [w]. *)
Ltac server_of w :=
  repeat match goal with
  | |- context [apiserver_Update ?n ?u ?W] =>
      lazymatch W with
      | w => fail
      | _ => change (apiserver_Update n u W) with (apiserver_Update n u w)
      end
  end.

Lemma SecretAdded_settled s w :
  settled s → ∃ l, SecretAdded (ObjSecret s) w = (Ret tt, with_glog l w).
Proof.
  unfold settled, generate_target, generated_at, regenerate_requested.
  intros ([val Hg] & [t Ht] & Hr). unfold SecretAdded. run.
  rewrite Hg, Ht, Hr. simpl. eauto.
Qed.

Lemma SecretAdded_pending s w :
  pending s →
  ∃ a val,
    Annotations s = Some a ∧ a !! SecretGenerateAnnotation = Some val ∧
    match scheme_fault w with
    | Some e => ∃ l, SecretAdded (ObjSecret s) w = (Ret tt, with_glog l w)
    | None =>
        match generateSecret (secretLength w) w with
        | (Panic msg, w2) => ∃ l,
            SecretAdded (ObjSecret s) w = (Panic msg, with_glog l w2)
        | (Ret (Err e), w2) => ∃ l,
            SecretAdded (ObjSecret s) w = (Ret tt, with_glog l w2)
        | (Ret (Ok tok), w2) =>
            match Data s with
            | None => ∃ l,
                SecretAdded (ObjSecret s) w =
                  (Panic "assignment to entry in nil map", with_glog l w2)
            | Some d => ∃ l,
                let u := regenerated s a d val (time_Now w) tok in
                SecretAdded (ObjSecret s) w =
                  (Ret tt, with_glog l (snd (Secrets_Update (Namespace s) u w2)))
            end
        end
    end.
Proof.
  unfold pending, generate_target, generated_at, regenerate_requested.
  intros ([val Hg] & Hp).
  destruct (Annotations s) as [a|] eqn:Ha; [|done]. simpl in Hg, Hp.
  exists a, val. split; [done|]. split; [done|].
  destruct (generateSecret_frame (secretLength w) w) as [rd Hrd].
  rewrite (Hrd w eq_refl).
  unfold regenerated, SecretAdded. run. rewrite Ha. simpl. rewrite Hg.
  destruct (fst (generateSecret (secretLength w) w)) as [[tok|e]|msg].
  - destruct (a !! SecretGeneratedAtAnnotation) as [t|] eqn:Hat;
      destruct (a !! SecretRegenerateAnnotation) as [r|] eqn:Hre;
      try (by destruct Hp as [?|[? ?]]); clear Hp;
      rewrite ?(delete_id a SecretRegenerateAnnotation) by done; simpl;
      (destruct (scheme_fault w) as [e'|]; [by logged|]);
      simpl; rewrite Hrd by reflexivity;
      simpl; rewrite ?Ha; simpl; rewrite ?Hre; simpl;
      (destruct (Data s) as [d|]; [|by logged]); simpl;
      unfold Secrets_Update; simpl; server_of w;
      destruct (apiserver_Update _ _ w); by logged.
  - destruct (a !! SecretGeneratedAtAnnotation) as [t|] eqn:Hat;
      destruct (a !! SecretRegenerateAnnotation) as [r|] eqn:Hre;
      try (by destruct Hp as [?|[? ?]]); clear Hp; simpl;
      (destruct (scheme_fault w) as [e'|]; [by logged|]);
      simpl; rewrite Hrd by reflexivity; by logged.
  - destruct (a !! SecretGeneratedAtAnnotation) as [t|] eqn:Hat;
      destruct (a !! SecretRegenerateAnnotation) as [r|] eqn:Hre;
      try (by destruct Hp as [?|[? ?]]); clear Hp; simpl;
      (destruct (scheme_fault w) as [e'|]; [by logged|]);
      simpl; rewrite Hrd by reflexivity; by logged.
Qed.

(** ** The store client *)

Lemma Secrets_Update_calls ns u w :
  api_calls (snd (Secrets_Update ns u w)) =
    mkCall ns u (apiserver_Update ns u w) :: api_calls w.
Proof. unfold Secrets_Update. by destruct (apiserver_Update ns u w). Qed.

Lemma Secrets_Update_rejected ns u w e :
  apiserver_Update ns u w = Err e →
  etcd (snd (Secrets_Update ns u w)) = etcd w ∧
  revision (snd (Secrets_Update ns u w)) = revision w.
Proof. unfold Secrets_Update. by intros ->. Qed.

Lemma new_calls_one w w' c :
  api_calls w' = c :: api_calls w → new_calls w w' = [c].
Proof.
  unfold new_calls. intros ->. cbn [length].
  replace (S (length (api_calls w)) - length (api_calls w))%nat with 1%nat
    by lia.
  done.
Qed.

Lemma generateSecret_untouched L w :
  store_untouched w (snd (generateSecret L w)).
Proof.
  destruct (generateSecret_frame L w) as [rd Hrd].
  by rewrite (Hrd w eq_refl).
Qed.

Lemma pending_or_not s :
  generate_target s = None ∨ settled s ∨ pending s.
Proof.
  unfold settled, pending.
  destruct (generate_target s); [|by left]. right.
  destruct (generated_at s), (regenerate_requested s); naive_solver.
Qed.

(** Every run either leaves the store alone or submits the one snapshot
    built from the token. *)
Lemma SecretAdded_run s w :
  store_untouched w (snd (SecretAdded (ObjSecret s) w)) ∨
  ∃ a d val tok w2,
    pending s ∧ Annotations s = Some a ∧ Data s = Some d ∧
    a !! SecretGenerateAnnotation = Some val ∧ scheme_fault w = None ∧
    generateSecret (secretLength w) w = (Ret (Ok tok), w2) ∧
    fst (SecretAdded (ObjSecret s) w) = Ret tt ∧
    ∃ l, snd (SecretAdded (ObjSecret s) w) =
      with_glog l (snd (Secrets_Update (Namespace s)
                          (regenerated s a d val (time_Now w) tok) w2)).
Proof.
  destruct (pending_or_not s) as [H|[H|H]].
  - left. rewrite (SecretAdded_unmanaged s w H).
    apply store_untouched_refl.
  - left. destruct (SecretAdded_settled s w H) as [l ->].
    apply store_untouched_glog.
  - destruct (SecretAdded_pending s w H) as (a & val & Ha & Hg & Hrun).
    destruct (scheme_fault w) as [e|] eqn:Hf.
    { left. destruct Hrun as [l ->]. apply store_untouched_glog. }
    pose proof (generateSecret_untouched (secretLength w) w) as Hst.
    destruct (generateSecret (secretLength w) w) as [[[tok|e]|msg] w2] eqn:Hgen.
    + destruct (Data s) as [d|] eqn:Hd.
      * right. destruct Hrun as [l Hrun].
        exists a, d, val, tok, w2. rewrite Hrun. eauto 12.
      * left. destruct Hrun as (l & ->).
        eapply store_untouched_trans; [apply Hst|apply store_untouched_glog].
    + left. destruct Hrun as [l ->].
      eapply store_untouched_trans; [apply Hst|apply store_untouched_glog].
    + left. destruct Hrun as [l ->].
      eapply store_untouched_trans; [apply Hst|apply store_untouched_glog].
Qed.

(** The calls of a run that ends with the update of [u]. *)
Lemma new_calls_update s w w2 l u r :
  generateSecret (secretLength w) w = (r, w2) →
  snd (SecretAdded (ObjSecret s) w) =
    with_glog l (snd (Secrets_Update (Namespace s) u w2)) →
  new_calls w (snd (SecretAdded (ObjSecret s) w)) =
    [mkCall (Namespace s) u (apiserver_Update (Namespace s) u w2)].
Proof.
  intros Hgen Hw. apply new_calls_one. rewrite Hw.
  cbn [with_glog api_calls]. rewrite Secrets_Update_calls.
  pose proof (generateSecret_untouched (secretLength w) w) as (_ & _ & Hc).
  rewrite Hgen in Hc. simpl in Hc. by rewrite Hc.
Qed.

Lemma reconcile_cases s w :
  reconcile s w = [] ∨ ∃ u, regeneration s w u ∧ reconcile s w = [u].
Proof.
  unfold reconcile.
  destruct (SecretAdded_run s w) as [(_ & _ & Hc)|H].
  - left. by rewrite new_calls_same.
  - right. destruct H as (a & d & val & tok & w2 & Hp & Ha & Hd & Hg & Hf &
                           Hgen & _ & l & Hw).
    exists (regenerated s a d val (time_Now w) tok).
    split; [by exists a, d, val, tok, w2|].
    by rewrite (new_calls_update _ _ _ _ _ _ Hgen Hw).
Qed.

Lemma reconcile_regenerates s w a d val tok w2 :
  pending s → Annotations s = Some a → Data s = Some d →
  a !! SecretGenerateAnnotation = Some val → scheme_fault w = None →
  generateSecret (secretLength w) w = (Ret (Ok tok), w2) →
  fst (SecretAdded (ObjSecret s) w) = Ret tt ∧
  reconcile s w = [regenerated s a d val (time_Now w) tok].
Proof.
  intros Hp Ha Hd Hg Hf Hgen.
  destruct (SecretAdded_pending s w Hp) as (a' & val' & Ha' & Hg' & Hrun).
  rewrite Hf, Hgen, Hd in Hrun. destruct Hrun as [l Hrun].
  assert (a' = a) as -> by congruence. assert (val' = val) as -> by congruence.
  cbn zeta in Hrun. unfold reconcile. split; [by rewrite Hrun|].
  erewrite (new_calls_update _ _ _ _ _ _ Hgen); [done|]. by rewrite Hrun.
Qed.

(** A pending record without a Data map: the copy has none either, and the
    assignment to its Data panics after the token was drawn. *)
Lemma SecretAdded_nil_Data s w tok w2 :
  pending s → Data s = None → scheme_fault w = None →
  generateSecret (secretLength w) w = (Ret (Ok tok), w2) →
  fst (SecretAdded (ObjSecret s) w) = Panic "assignment to entry in nil map" ∧
  reconcile s w = [].
Proof.
  intros Hp Hd Hf Hgen.
  destruct (SecretAdded_pending s w Hp) as (a & val & _ & _ & Hrun).
  rewrite Hf, Hgen, Hd in Hrun. destruct Hrun as [l Hrun].
  unfold reconcile. rewrite Hrun. split; [done|].
  rewrite new_calls_same; [done|]. simpl.
  pose proof (generateSecret_untouched (secretLength w) w) as (_ & _ & Hc).
  by rewrite Hgen in Hc.
Qed.

(** The snapshot built by a regeneration is settled. *)
Lemma regenerated_settled s a d val now tok :
  a !! SecretGenerateAnnotation = Some val →
  settled (regenerated s a d val now tok).
Proof.
  intros Hg. unfold settled, generate_target, generated_at,
    regenerate_requested, regenerated. simpl. repeat split.
  - exists val. rewrite lookup_insert_ne by done.
    by rewrite lookup_delete_ne by done.
  - exists now. by rewrite lookup_insert_eq.
  - rewrite lookup_insert_ne by done. by rewrite lookup_delete_eq.
Qed.

Lemma deliveries_settled n s w :
  settled s → ∃ l, deliveries n (ObjSecret s) w = (Ret tt, with_glog l w).
Proof.
  intros Hs. revert w. induction n as [|n IH]; intros w.
  - exists (glog w). simpl. run. by destruct w.
  - cbn [deliveries]. unfold mbind, M_bind.
    destruct (SecretAdded_settled s w Hs) as [l ->].
    destruct (IH (with_glog l w)) as [l' ->]. by exists l'.
Qed.

(** * The claims *)

(** C1. A record whose annotations hold the generate target and the
    generation time, and no regeneration request, is left alone: a run of
    the handler submits nothing, and any number of runs on that snapshot
    return normally in a world that differs from the first one by log lines
    only, so that the stored records, Data and annotations included, the
    revision and the list of update calls are what they were. *)
Theorem settled_reconcile_noop (s : Secret) (w : World) (n : nat) :
  settled s →
  reconcile s w = [] ∧
  (∃ l, deliveries n (ObjSecret s) w = (Ret tt, with_glog l w)) ∧
  store_untouched w (snd (deliveries n (ObjSecret s) w)).
Proof.
  intros Hs. destruct (deliveries_settled n s w Hs) as [l Hn].
  destruct (SecretAdded_settled s w Hs) as [l1 H1].
  split; [|split].
  - unfold reconcile. rewrite H1. by rewrite new_calls_same.
  - by exists l.
  - rewrite Hn. apply store_untouched_glog.
Qed.

(** C2. A snapshot that a run of the handler submits holds the generation
    time and no regeneration request. The handler run on it, or on any
    record with the same annotations (the stored record differs by its
    version token), in any world and any number of times, submits nothing
    and changes nothing but the log. *)
Theorem reconcile_output_settled (s u : Secret) (w : World) :
  u ∈ reconcile s w →
  is_Some (generated_at u) ∧ regenerate_requested u = None ∧
  ∀ (s' : Secret) (w' : World) (n : nat),
    Annotations s' = Annotations u →
    reconcile s' w' = [] ∧
    ∃ l, deliveries n (ObjSecret s') w' = (Ret tt, with_glog l w').
Proof.
  intros Hu.
  assert (Hset : settled u).
  { destruct (reconcile_cases s w) as [E|(u' & Hreg & E)]; rewrite E in Hu.
    - by apply elem_of_nil in Hu.
    - apply list_elem_of_singleton in Hu as ->.
      destruct Hreg as (a & d & val & tok & w2 & _ & _ & _ & Hg & _ & _ & ->).
      by apply regenerated_settled. }
  split; [apply Hset|]. split; [apply Hset|].
  intros s' w' n Ha.
  assert (Hset' : settled s').
  { revert Hset. unfold settled, generate_target, generated_at,
      regenerate_requested. by rewrite Ha. }
  destruct (deliveries_settled n s' w' Hset') as [l Hn].
  destruct (SecretAdded_settled s' w' Hset') as [l1 H1].
  split; [|by exists l].
  unfold reconcile. rewrite H1. by rewrite new_calls_same.
Qed.

Lemma length_list_byte_of_string s :
  length (list_byte_of_string s) = String.length s.
Proof.
  unfold list_byte_of_string. rewrite length_map.
  induction s as [|a s IH]; simpl; [done|]. by f_equal.
Qed.

(** C3, as stated, fails: records with the generate target and no
    generation time whose run submits no snapshot. The record [bare_secret]
    has no Data map: the copier and the token generator work, and the run
    panics at the assignment to Data. The record [unfilled_secret] has one:
    its run submits nothing where the token generator fails and where the
    copier fails. *)
Lemma first_generation_without_snapshot :
  (generate_target bare_secret = Some "token" ∧
   generated_at bare_secret = None ∧
   scheme_fault example_world = None ∧
   generateSecret (secretLength example_world) example_world =
     (Ret (Ok example_token), drawn_world) ∧
   reconcile bare_secret example_world = [] ∧
   fst (SecretAdded (ObjSecret bare_secret) example_world) =
     Panic "assignment to entry in nil map") ∧
  (generate_target unfilled_secret = Some "token" ∧
   generated_at unfilled_secret = None ∧
   fst (generateSecret (secretLength dry_world) dry_world) =
     Ret (Err "read failed") ∧
   reconcile unfilled_secret dry_world = [] ∧
   scheme_fault uncopyable_world = Some "no copier for the type" ∧
   reconcile unfilled_secret uncopyable_world = []).
Proof.
  split.
  - repeat split; vm_compute; reflexivity.
  - repeat split; vm_compute; reflexivity.
Qed.


(** C6. Frame: a snapshot that a run submits is the received one with new
    annotations and a new Data map: name, namespace, version token, labels
    and type are those received; every annotation other than the
    generation time and the regeneration request is as received (the
    generate target too); every Data key other than the target has the
    value, or the absence, it had. *)
Theorem reconcile_frame (s u : Secret) (w : World) :
  u ∈ reconcile s w →
  ∃ val, generate_target s = Some val ∧
    Name u = Name s ∧ Namespace u = Namespace s ∧
    ResourceVersion u = ResourceVersion s ∧
    Labels u = Labels s ∧ Type_ u = Type_ s ∧
    (∀ k, k ≠ SecretGeneratedAtAnnotation → k ≠ SecretRegenerateAnnotation →
          GoMap.get (Annotations u) k = GoMap.get (Annotations s) k) ∧
    (∀ k, k ≠ val → GoMap.get (Data u) k = GoMap.get (Data s) k).
Proof.
  intros Hu.
  destruct (reconcile_cases s w) as [E|(u' & Hreg & E)]; rewrite E in Hu.
  { by apply elem_of_nil in Hu. }
  apply list_elem_of_singleton in Hu as ->.
  destruct Hreg as (a & d & val & tok & w2 & _ & Ha & Hd & Hg & _ & _ & ->).
  exists val. unfold generate_target. rewrite Ha, Hd. simpl.
  repeat split; try done.
  - intros k H1 H2. rewrite lookup_insert_ne by done.
    by rewrite lookup_delete_ne by done.
  - intros k H1. by rewrite lookup_insert_ne by done.
Qed.

(** C7. A record without the generate target is not managed: whatever its
    other annotations, the run returns at once, in the very world it
    started in, and submits nothing. *)
Theorem unmanaged_untouched (s : Secret) (w : World) :
  generate_target s = None →
  SecretAdded (ObjSecret s) w = (Ret tt, w) ∧ reconcile s w = [].
Proof.
  intros H. pose proof (SecretAdded_unmanaged s w H) as E.
  split; [done|]. unfold reconcile. rewrite E. by rewrite new_calls_same.
Qed.

(** C4, as stated, fails: a settled record with a regeneration request,
    whose regeneration writes the very value the record held. *)
Lemma regeneration_repeats_value :
  is_Some (generate_target requested_secret) ∧
  is_Some (generated_at requested_secret) ∧
  is_Some (regenerate_requested requested_secret) ∧
  ∃ u, reconcile requested_secret repeating_world = [u] ∧
       regenerate_requested u = None ∧
       GoMap.get (Data u) "password" =
         GoMap.get (Data requested_secret) "password".
Proof.
  split; [vm_compute; by eexists|]. split; [vm_compute; by eexists|].
  split; [vm_compute; by eexists|].
  eexists. split; [vm_compute; reflexivity|].
  split; vm_compute; reflexivity.
Qed.

(** C4, amended. For a record that holds the generate target [val], the
    generation time and a regeneration request, in a world where the copier
    and the token generator work and the record carries a Data map, one run
    submits one snapshot: the regeneration request is gone, the generation
    time is that of the run, and Data at [val] is the token the generator
    drew in this run, of the configured length over the alphabet, whatever
    value the record held before. *)
Theorem regeneration_overwrites (s : Secret) (w w2 : World) (val tok : string) :
  generate_target s = Some val →
  is_Some (generated_at s) →
  is_Some (regenerate_requested s) →
  is_Some (Data s) →
  scheme_fault w = None →
  generateSecret (secretLength w) w = (Ret (Ok tok), w2) →
  ∃ u, reconcile s w = [u] ∧
       regenerate_requested u = None ∧
       generated_at u = Some (time_Now w) ∧
       GoMap.get (Data u) val = Some (list_byte_of_string tok) ∧
       Z.of_nat (length (list_byte_of_string tok)) = secretLength w ∧
       Forall (λ c, c ∈ alphabet_chars) (list_ascii_of_string tok).
Proof.
  intros Hg Hat Hre [d Hd] Hf Hgen.
  assert (Hp : pending s) by (split; [by exists val | by right]).
  unfold generate_target in Hg.
  destruct (Annotations s) as [a|] eqn:Ha; [|done]. simpl in Hg.
  destruct (reconcile_regenerates s w a d val tok w2) as [Hr Hu]; try done.
  destruct (generateSecret_token _ _ _ _ Hgen) as (HL & Hlen & Hall).
  eexists. split; [done|].
  destruct (regenerated_settled s a d val (time_Now w) tok Hg) as (_ & _ & Hn).
  split; [done|].
  split; [by unfold generated_at; simpl; rewrite lookup_insert_eq|].
  split; [by simpl; rewrite lookup_insert_eq|].
  split; [|done]. rewrite length_list_byte_of_string, Hlen. lia.
Qed.

(** C5. The scenario: a record whose only annotation is the generate target
    ["token"] and whose Data map is empty, in a world with the default
    length 40, a working copier and generator and a clock that renders a
    non-empty time. The run submits one snapshot; its annotations are the
    generate target and the generation time, non-empty; its Data maps
    ["token"], and nothing else, to a string of 40 characters of the
    alphabet. *)
Theorem scenario_token (name ns version ty : string) (labels : GoMap.t string)
    (w w2 : World) (tok : string) :
  let s := mkSecret name ns version labels
             (Some {[SecretGenerateAnnotation := "token"]}) (Some ∅) ty in
  secretLength w = 40 →
  time_Now w ≠ EmptyString →
  scheme_fault w = None →
  generateSecret (secretLength w) w = (Ret (Ok tok), w2) →
  ∃ u generated,
    reconcile s w = [u] ∧
    generated ≠ EmptyString ∧
    Annotations u = Some {[SecretGenerateAnnotation := "token";
                           SecretGeneratedAtAnnotation := generated]} ∧
    Data u = Some {["token" := list_byte_of_string tok]} ∧
    length (list_byte_of_string tok) = 40%nat ∧
    Forall (λ c, c ∈ alphabet_chars) (list_ascii_of_string tok).
Proof.
  intros s HL Hnow Hf Hgen.
  assert (Hp : pending s) by (split; [by eexists | by left]).
  destruct (reconcile_regenerates s w {[SecretGenerateAnnotation := "token"]}
              ∅ "token" tok w2) as [Hr Hu]; try done.
  destruct (generateSecret_token _ _ _ _ Hgen) as (_ & Hlen & Hall).
  exists (regenerated s {[SecretGenerateAnnotation := "token"]} ∅ "token"
            (time_Now w) tok), (time_Now w).
  split; [done|]. split; [done|]. split.
  { cbn [regenerated with_Data with_Annotations Annotations].
    vm_compute. reflexivity. }
  split; [done|]. split; [|done].
  rewrite length_list_byte_of_string, Hlen, HL. done.
Qed.

(** C8. When the token generator fails, or the update is refused, the
    handler returns normally, the records the server stores and its revision
    are what they were, and at most one update call was made: none when the
    generator failed, and no second one after a refusal. *)
Theorem failure_abandons (s : Secret) (w : World) :
  generation_fails w ∨ write_fails s w →
  fst (SecretAdded (ObjSecret s) w) = Ret tt ∧
  etcd (snd (SecretAdded (ObjSecret s) w)) = etcd w ∧
  revision (snd (SecretAdded (ObjSecret s) w)) = revision w ∧
  (length (reconcile s w) ≤ 1)%nat ∧
  (generation_fails w → reconcile s w = []).
Proof.
  intros H.
  assert (Hlen : (length (reconcile s w) ≤ 1)%nat).
  { destruct (reconcile_cases s w) as [->|(u & _ & ->)]; simpl; lia. }
  assert (Hgf : generation_fails w →
    fst (SecretAdded (ObjSecret s) w) = Ret tt ∧
    store_untouched w (snd (SecretAdded (ObjSecret s) w))).
  { intros [e He].
    destruct (pending_or_not s) as [Hs|[Hs|Hs]].
    - rewrite (SecretAdded_unmanaged s w Hs). split; [done|].
      apply store_untouched_refl.
    - destruct (SecretAdded_settled s w Hs) as [l ->]. split; [done|].
      apply store_untouched_glog.
    - destruct (SecretAdded_pending s w Hs) as (a & val & _ & _ & Hrun).
      destruct (scheme_fault w).
      { destruct Hrun as [l ->]. split; [done|]. apply store_untouched_glog. }
      pose proof (generateSecret_untouched (secretLength w) w) as Hst.
      destruct (generateSecret (secretLength w) w) as [r w2]. simpl in He.
      subst r. destruct Hrun as [l ->]. split; [done|].
      eapply store_untouched_trans; [apply Hst|apply store_untouched_glog]. }
  destruct H as [H|(c & e & Hc & He)].
  - destruct (Hgf H) as (Hr & He & Hv & Hcalls).
    repeat split; try done. intros _. unfold reconcile.
    by rewrite new_calls_same.
  - destruct (SecretAdded_run s w) as [(_ & _ & Hcalls)|Hrun].
    { rewrite new_calls_same in Hc by done. by apply elem_of_nil in Hc. }
    destruct Hrun as (a & d & val & tok & w2 & _ & _ & _ & _ & _ & Hgen &
                      Hr & l & Hw).
    pose proof (generateSecret_untouched (secretLength w) w) as Hst.
    rewrite Hgen in Hst. destruct Hst as (Hst1 & Hst2 & Hst3). simpl in *.
    set (u := regenerated s a d val (time_Now w) tok) in *.
    assert (Hcs : new_calls w (snd (SecretAdded (ObjSecret s) w)) =
                  [mkCall (Namespace s) u (apiserver_Update (Namespace s) u w2)]).
    { apply new_calls_one. rewrite Hw. cbn [with_glog api_calls].
      by rewrite Secrets_Update_calls, Hst3. }
    rewrite Hcs in Hc. apply list_elem_of_singleton in Hc as ->.
    simpl in He.
    destruct (Secrets_Update_rejected _ _ _ _ He) as [He1 He2].
    split; [done|]. rewrite Hw. cbn [with_glog etcd revision].
    rewrite He1, He2. repeat split; try done.
    intros [e' He']. rewrite Hgen in He'. done.
Qed.

(** ** Draws and characters *)

Lemma alphabet_chars_NoDup : NoDup alphabet_chars.
Proof. by apply (bool_decide_unpack _); vm_compute. Qed.

(** A draw in range selects one character of the alphabet, at its index. *)
Lemma draw_char n :
  0 ≤ n < 62 →
  ∃ a, alphabet_chars !! Z.to_nat n = Some a ∧
       utf8_encode_rune (rune_of n) = [a].
Proof.
  intros H. destruct (runes_at_ok n (mkWorld 0 [] EmptyString None None ∅ 0 [] []) H)
    as (r & _ & Hr).
  destruct (Forall2_lookup_l _ _ _ _ _ runes_encode Hr) as (a & Ha & Henc).
  exists a. split; [done|]. unfold rune_of. by rewrite Hr.
Qed.

Lemma token_of_cons n ds :
  0 ≤ n < 62 →
  ∃ a, utf8_encode_rune (rune_of n) = [a] ∧ a ∈ alphabet_chars ∧
       token_of (n :: ds) = String a (token_of ds).
Proof.
  intros Hn. destruct (draw_char n Hn) as (a & Ha & Henc).
  exists a. split; [done|]. split; [eapply list_elem_of_lookup_2, Ha|].
  unfold token_of, string_of_runes. cbn [fmap list_fmap mbind list_bind].
  by rewrite Henc.
Qed.

(** A byte that is not accepted is dropped, and the run goes on as if it
    had not been there. *)
Lemma generateSecret_reject L c rest w :
  0 < L → ¬ accepted c → rand_Reader w = Some c :: rest →
  generateSecret L w =
    (fst (generateSecret L (with_rand_Reader rest w)),
     with_rand_Reader
       (rand_Reader (snd (generateSecret L (with_rand_Reader rest w)))) w).
Proof.
  intros HL Hc Hrd. unfold generateSecret, make_runes.
  rewrite decide_False by lia.
  unfold mbind, M_bind, mret, M_ret. cbv beta iota.
  set (b := replicate (Z.to_nat L) 0).
  assert (Hb : length b = S (Z.to_nat L - 1))
    by (subst b; rewrite length_replicate; lia).
  rewrite Hb. generalize (Z.to_nat L - 1)%nat b. clear b Hb. intros todo b.
  assert (E : generateSecret_loop (S todo) 0 b w =
    (fst (generateSecret_loop (S todo) 0 b (with_rand_Reader rest w)),
     with_rand_Reader
       (rand_Reader
          (snd (generateSecret_loop (S todo) 0 b (with_rand_Reader rest w))))
       w)).
  { cbn [generateSecret_loop]. unfold mbind, M_bind. rewrite !rand_Int_62.
    rewrite Hrd. cbn [with_rand_Reader rand_Reader].
    rewrite draw_reject by done.
    destruct (draw rest) as [[m|e] rd]; [|done]. cbn [fst snd].
    destruct (runes_at_pure m) as [[r|msg] Hr]; rewrite !Hr; [|done].
    destruct (generateSecret_loop_frame todo 1 (<[0%nat:=r]> b)
                (with_rand_Reader rd w)) as [rd' Hrd'].
    rewrite (Hrd' (with_rand_Reader rd w) eq_refl).
    by rewrite (Hrd' (with_rand_Reader rd (with_rand_Reader rest w)) eq_refl). }
  rewrite E.
  by destruct (generateSecret_loop (S todo) 0 b (with_rand_Reader rest w))
    as [[[b'|e]|msg] w''].
Qed.

Lemma token_of_chars ds :
  Forall (λ n, 0 ≤ n < 62) ds →
  token_of ds = string_of_list_ascii (char_of <$> ds).
Proof.
  induction 1 as [|n ds Hn _ IH]; [done|].
  destruct (draw_char n Hn) as (a & Ha & Henc).
  destruct (token_of_cons n ds Hn) as (a' & Henc' & _ & ->).
  assert (a' = a) as -> by congruence.
  cbn [fmap list_fmap string_of_list_ascii]. rewrite <- IH.
  unfold char_of. by rewrite Ha.
Qed.

Lemma all_bytes_complete : NoDup all_bytes ∧ ∀ b : byte, b ∈ all_bytes.
Proof.
  split.
  - by apply (bool_decide_unpack _); vm_compute.
  - intros b. apply (bool_decide_unpack _). by destruct b; vm_compute.
Qed.

Lemma bytes_per_character :
  Forall (λ a, length (filter (λ b, accepted b ∧ char_of (candidate b) = a)
                              all_bytes) = 4%nat) alphabet_chars ∧
  length (filter (λ b, ¬ accepted b) all_bytes) = 8%nat.
Proof.
  split.
  - by apply (bool_decide_unpack _); vm_compute.
  - by vm_compute.
Qed.

(** C9. For a positive length [L]: the alphabet has 62 distinct
    characters; whatever the reader holds, with at least [L] accepted bytes
    before its first failing read the token is the string whose [i]-th
    character is the character of the alphabet at the index given by the
    [i]-th accepted byte, for every [i] below [L]: one accepted byte per
    character, each character a function of its own byte alone, and bytes
    that are not accepted, wherever they stand, are passed over, never
    reduced into the range; with fewer accepted bytes there is no token; of
    the 256 values of a byte, four select each character of the alphabet
    and the eight left over are not accepted. Bytes that are uniform and
    independent thus give characters that are uniform and independent,
    although 62 does not divide 256. *)
Theorem generateSecret_unbiased (L : Z) :
  0 < L →
  (length alphabet_chars = 62%nat ∧ NoDup alphabet_chars) ∧
  (∀ w, (Z.to_nat L ≤ length (usable (rand_Reader w)))%nat →
     fst (generateSecret L w) =
       Ret (Ok (string_of_list_ascii
                  (char_of <$> (candidate <$>
                      take (Z.to_nat L) (usable (rand_Reader w))))))) ∧
  (∀ w, (length (usable (rand_Reader w)) < Z.to_nat L)%nat →
     ∃ e, fst (generateSecret L w) = Ret (Err e)) ∧
  (∀ bs rest w,
     length bs = Z.to_nat L → Forall accepted bs →
     rand_Reader w = (Some <$> bs) ++ rest →
     generateSecret L w =
       (Ret (Ok (string_of_list_ascii (char_of <$> (candidate <$> bs)))),
        with_rand_Reader rest w)) ∧
  ((NoDup all_bytes ∧ ∀ b : byte, b ∈ all_bytes) ∧
   (∀ a, a ∈ alphabet_chars →
         length (filter (λ b, accepted b ∧ char_of (candidate b) = a)
                        all_bytes) = 4%nat) ∧
   length (filter (λ b, ¬ accepted b) all_bytes) = 8%nat) ∧
  (∀ c rest w,
     ¬ accepted c → rand_Reader w = Some c :: rest →
     generateSecret L w =
       (fst (generateSecret L (with_rand_Reader rest w)),
        with_rand_Reader
          (rand_Reader (snd (generateSecret L (with_rand_Reader rest w))))
          w)).
Proof.
  intros HL. split; [split; [done | apply alphabet_chars_NoDup]|].
  split; [|split; [|split; [|split]]].
  - intros w Hus. rewrite generateSecret_usable by lia.
    rewrite token_of_chars; [done|].
    apply candidates_in_range, Forall_take, usable_accepted.
  - intros w Hus. exists (reader_error (rand_Reader w)).
    unfold generateSecret, make_runes. rewrite decide_False by lia.
    unfold mbind, M_bind, mret, M_ret. cbv beta iota.
    rewrite length_replicate.
    pose proof (generateSecret_loop_starved (Z.to_nat L) 0
                  (replicate (Z.to_nat L) 0) w Hus) as Hloop.
    destruct (generateSecret_loop _ _ _ _) as [r w']. simpl in Hloop.
    by subst r.
  - intros bs rest w Hlen Hbs Hrd.
    rewrite <- token_of_chars by (by apply candidates_in_range).
    apply generateSecret_draws; [lia|done..].
  - split; [apply all_bytes_complete|].
    destruct bytes_per_character as [Hfour Height].
    split; [|done]. intros a Ha. by eapply Forall_forall in Hfour.
  - intros c rest w. by apply generateSecret_reject.
Qed.

(** ** Presence, not values *)

Lemma reconcile_nonempty s w : reconcile s w ≠ [] ↔ regenerates s w.
Proof.
  split.
  - intros Hne. destruct (reconcile_cases s w) as [E|(u & Hreg & _)]; [done|].
    destruct Hreg as (a & d & val & tok & w2 & Hp & _ & Hd & _ & Hf & Hgen & _).
    split; [done|]. split; [by exists d|]. split; [done|].
    exists tok. by rewrite Hgen.
  - intros (Hp & [d Hd] & Hf & tok & Hgen).
    pose proof Hp as ([val Hg] & _). unfold generate_target in Hg.
    destruct (Annotations s) as [a|] eqn:Ha; [|done]. simpl in Hg.
    destruct (generateSecret (secretLength w) w) as [r w2] eqn:E.
    simpl in Hgen. subst r.
    destruct (reconcile_regenerates s w a d val tok w2) as [_ ->]; done.
Qed.

Lemma reconcile_length s w :
  (length (reconcile s w) ≤ 1)%nat.
Proof. destruct (reconcile_cases s w) as [->|(u & _ & ->)]; simpl; lia. Qed.

Lemma same_presence_pending s s' : same_presence s s' → pending s → pending s'.
Proof.
  unfold same_presence, pending. intros (Hg & Ht & Hr) (Hgs & Hp).
  split; [by apply Hg|]. destruct Hp as [Hp|Hp]; [left|right; by apply Hr].
  destruct (generated_at s') eqn:E; [|done].
  assert (is_Some (generated_at s)) as [t Hts] by (apply Ht; eauto).
  congruence.
Qed.

(** C10. The decision reads which control keys are present, not their
    values. Two records with the same control keys (and both with, or both
    without, a Data map) lead to the same decision in every world: both
    runs submit a snapshot or neither does. A regeneration request with any
    value, the empty string included, makes a managed record regenerate
    where the copier and the generator work; a generation time with any
    value, the empty string included, and no request, makes it a no-op; and
    an empty generate target still marks the record as managed: the token is
    written at the Data key that is the empty string. *)
Theorem decision_by_presence (s s' : Secret) (w : World) :
  same_presence s s' →
  (is_Some (Data s) ↔ is_Some (Data s')) →
  length (reconcile s w) = length (reconcile s' w) ∧
  (∀ v tok w2,
     is_Some (generate_target s) → regenerate_requested s = Some v →
     is_Some (Data s) → scheme_fault w = None →
     generateSecret (secretLength w) w = (Ret (Ok tok), w2) →
     ∃ u, reconcile s w = [u] ∧ regenerate_requested u = None) ∧
  (∀ v,
     is_Some (generate_target s) → generated_at s = Some v →
     regenerate_requested s = None →
     reconcile s w = [] ∧
     store_untouched w (snd (SecretAdded (ObjSecret s) w))) ∧
  (∀ tok w2,
     generate_target s = Some EmptyString → pending s →
     is_Some (Data s) → scheme_fault w = None →
     generateSecret (secretLength w) w = (Ret (Ok tok), w2) →
     ∃ u, reconcile s w = [u] ∧
          GoMap.get (Data u) EmptyString = Some (list_byte_of_string tok)).
Proof.
  intros Hsame Hdata.
  assert (Hsame' : same_presence s' s).
  { destruct Hsame as (H1 & H2 & H3). by repeat split; intros ?;
      (apply H1 || apply H2 || apply H3). }
  assert (Hiff : regenerates s w ↔ regenerates s' w).
  { unfold regenerates. split; intros (Hp & Hd & Hrest).
    - split; [by eapply same_presence_pending|]. split; [by apply Hdata|done].
    - split; [by eapply same_presence_pending|]. split; [by apply Hdata|done]. }
  split; [|split; [|split]].
  - pose proof (reconcile_length s w). pose proof (reconcile_length s' w).
    pose proof (reconcile_nonempty s w) as N. pose proof (reconcile_nonempty s' w) as N'.
    destruct (reconcile s w) as [|u l], (reconcile s' w) as [|u' l']; simpl in *.
    + done.
    + exfalso. assert (regenerates s w) as Hr by (apply Hiff, N'; done).
      by apply N in Hr.
    + exfalso. assert (regenerates s' w) as Hr by (apply Hiff, N; done).
      by apply N' in Hr.
    + destruct l, l'; simpl in *; lia.
  - intros v tok w2 [val Hg] Hre [d Hd] Hf Hgen.
    assert (Hp : pending s) by (split; [by exists val | right; by exists v]).
    unfold generate_target in Hg.
    destruct (Annotations s) as [a|] eqn:Ha; [|done]. simpl in Hg.
    destruct (reconcile_regenerates s w a d val tok w2) as [_ ->]; try done.
    eexists. split; [done|].
    by destruct (regenerated_settled s a d val (time_Now w) tok Hg) as (_ & _ & ?).
  - intros v Hg Hat Hre.
    assert (Hs : settled s) by (split; [done|]; split; [by exists v|done]).
    destruct (SecretAdded_settled s w Hs) as [l Hl]. unfold reconcile.
    rewrite Hl. split; [by rewrite new_calls_same|]. apply store_untouched_glog.
  - intros tok w2 Hg Hp [d Hd] Hf Hgen.
    unfold generate_target in Hg.
    destruct (Annotations s) as [a|] eqn:Ha; [|done]. simpl in Hg.
    destruct (reconcile_regenerates s w a d EmptyString tok w2) as [_ ->]; try done.
    eexists. split; [done|]. simpl. by rewrite lookup_insert_eq.
Qed.


(** * The claims at the example records *)

(** An annotation, or a Data map, of an example record is there. *)
Ltac present := vm_compute; eexists; reflexivity.

Lemma example_generation :
  generateSecret (secretLength example_world) example_world =
    (Ret (Ok example_token), drawn_world).
Proof. vm_compute. reflexivity. Qed.

Lemma repeating_generation :
  generateSecret (secretLength repeating_world) repeating_world =
    (Ret (Ok forty_a), with_rand_Reader [] repeating_world).
Proof. vm_compute. reflexivity. Qed.

Lemma example_reconcile :
  reconcile unfilled_secret example_world = [filled_secret].
Proof. vm_compute. reflexivity. Qed.

Lemma filled_settled : settled filled_secret.
Proof. split; [present|]. split; [present|]. vm_compute. reflexivity. Qed.

Lemma settled_reconcile_noop_witness :
  settled filled_secret ∧
  reconcile filled_secret example_world = [] ∧
  (∃ l, deliveries 3 (ObjSecret filled_secret) example_world =
          (Ret tt, with_glog l example_world)) ∧
  store_untouched example_world
    (snd (deliveries 3 (ObjSecret filled_secret) example_world)).
Proof.
  split; [exact filled_settled|].
  exact (settled_reconcile_noop filled_secret example_world 3 filled_settled).
Defined.

Lemma reconcile_output_settled_witness :
  filled_secret ∈ reconcile unfilled_secret example_world ∧
  is_Some (generated_at filled_secret) ∧
  regenerate_requested filled_secret = None ∧
  ∀ (s' : Secret) (w' : World) (n : nat),
    Annotations s' = Annotations filled_secret →
    reconcile s' w' = [] ∧
    ∃ l, deliveries n (ObjSecret s') w' = (Ret tt, with_glog l w').
Proof.
  assert (H : filled_secret ∈ reconcile unfilled_secret example_world).
  { rewrite example_reconcile. apply list_elem_of_here. }
  split; [exact H|].
  exact (reconcile_output_settled unfilled_secret filled_secret example_world H).
Defined.


Lemma regeneration_overwrites_witness :
  ∃ u, reconcile requested_secret repeating_world = [u] ∧
       regenerate_requested u = None ∧
       generated_at u = Some (time_Now repeating_world) ∧
       GoMap.get (Data u) "password" = Some (list_byte_of_string forty_a) ∧
       Z.of_nat (length (list_byte_of_string forty_a)) =
         secretLength repeating_world ∧
       Forall (λ c, c ∈ alphabet_chars) (list_ascii_of_string forty_a).
Proof.
  apply (regeneration_overwrites requested_secret repeating_world
           (with_rand_Reader [] repeating_world) "password" forty_a).
  - vm_compute. reflexivity.
  - present.
  - present.
  - present.
  - vm_compute. reflexivity.
  - exact repeating_generation.
Defined.

Lemma scenario_token_witness :
  ∃ u generated,
    reconcile unfilled_secret example_world = [u] ∧
    generated ≠ EmptyString ∧
    Annotations u = Some {[SecretGenerateAnnotation := "token";
                           SecretGeneratedAtAnnotation := generated]} ∧
    Data u = Some {["token" := list_byte_of_string example_token]} ∧
    length (list_byte_of_string example_token) = 40%nat ∧
    Forall (λ c, c ∈ alphabet_chars) (list_ascii_of_string example_token).
Proof.
  apply (scenario_token "db" "default" "7" "Opaque" None example_world
           drawn_world example_token).
  - vm_compute. reflexivity.
  - discriminate.
  - vm_compute. reflexivity.
  - exact example_generation.
Defined.

Lemma reconcile_frame_witness :
  ∃ val, generate_target unfilled_secret = Some val ∧
    Name filled_secret = Name unfilled_secret ∧
    Namespace filled_secret = Namespace unfilled_secret ∧
    ResourceVersion filled_secret = ResourceVersion unfilled_secret ∧
    Labels filled_secret = Labels unfilled_secret ∧
    Type_ filled_secret = Type_ unfilled_secret ∧
    (∀ k, k ≠ SecretGeneratedAtAnnotation → k ≠ SecretRegenerateAnnotation →
          GoMap.get (Annotations filled_secret) k =
            GoMap.get (Annotations unfilled_secret) k) ∧
    (∀ k, k ≠ val → GoMap.get (Data filled_secret) k =
                     GoMap.get (Data unfilled_secret) k).
Proof.
  apply (reconcile_frame unfilled_secret filled_secret example_world).
  rewrite example_reconcile. apply list_elem_of_here.
Defined.

Lemma unmanaged_untouched_witness :
  SecretAdded (ObjSecret plain_secret) example_world = (Ret tt, example_world) ∧
  reconcile plain_secret example_world = [].
Proof.
  apply (unmanaged_untouched plain_secret example_world).
  vm_compute. reflexivity.
Defined.

Lemma failure_abandons_witness :
  (fst (SecretAdded (ObjSecret unfilled_secret) dry_world) = Ret tt ∧
   etcd (snd (SecretAdded (ObjSecret unfilled_secret) dry_world)) =
     etcd dry_world ∧
   revision (snd (SecretAdded (ObjSecret unfilled_secret) dry_world)) =
     revision dry_world ∧
   (length (reconcile unfilled_secret dry_world) ≤ 1)%nat ∧
   (generation_fails dry_world → reconcile unfilled_secret dry_world = [])) ∧
  (fst (SecretAdded (ObjSecret unfilled_secret) unreachable_world) = Ret tt ∧
   etcd (snd (SecretAdded (ObjSecret unfilled_secret) unreachable_world)) =
     etcd unreachable_world ∧
   revision (snd (SecretAdded (ObjSecret unfilled_secret) unreachable_world)) =
     revision unreachable_world ∧
   (length (reconcile unfilled_secret unreachable_world) ≤ 1)%nat ∧
   (generation_fails unreachable_world →
    reconcile unfilled_secret unreachable_world = [])).
Proof.
  split.
  - apply (failure_abandons unfilled_secret dry_world).
    left. exists "read failed". vm_compute. reflexivity.
  - apply (failure_abandons unfilled_secret unreachable_world).
    right. eexists _, "connection refused". split.
    + vm_compute. apply list_elem_of_here.
    + vm_compute. reflexivity.
Defined.

Lemma generateSecret_unbiased_witness :
  fst (generateSecret 2 interleaved_world) = Ret (Ok "ab") ∧
  (∀ a, a ∈ alphabet_chars →
        length (filter (λ b, accepted b ∧ char_of (candidate b) = a)
                       all_bytes) = 4%nat).
Proof.
  assert (H : 0 < 2) by reflexivity.
  assert (Hus : (Z.to_nat 2 ≤ length (usable (rand_Reader interleaved_world)))%nat)
    by (vm_compute; lia).
  split.
  - exact (proj1 (proj2 (generateSecret_unbiased 2 H)) interleaved_world Hus).
  - exact (proj1 (proj2 (proj1 (proj2 (proj2 (proj2 (proj2
             (generateSecret_unbiased 2 H)))))))).
Defined.

Lemma decision_by_presence_witness :
  length (reconcile empty_values_secret repeating_world) =
    length (reconcile requested_secret repeating_world) ∧
  (∃ u, reconcile empty_values_secret repeating_world = [u] ∧
        regenerate_requested u = None) ∧
  (∃ u, reconcile empty_values_secret repeating_world = [u] ∧
        GoMap.get (Data u) EmptyString = Some (list_byte_of_string forty_a)).
Proof.
  assert (Hsame : same_presence empty_values_secret requested_secret).
  { repeat split; intros _; present. }
  assert (Hdata : is_Some (Data empty_values_secret) ↔
                  is_Some (Data requested_secret)).
  { split; intros _; present. }
  destruct (decision_by_presence empty_values_secret requested_secret
              repeating_world Hsame Hdata) as (Hlen & Hre & _ & Hempty).
  split; [exact Hlen|]. split.
  - apply (Hre EmptyString forty_a (with_rand_Reader [] repeating_world)).
    + present.
    + vm_compute. reflexivity.
    + present.
    + vm_compute. reflexivity.
    + exact repeating_generation.
  - apply (Hempty forty_a (with_rand_Reader [] repeating_world)).
    + vm_compute. reflexivity.
    + split; [present | right; present].
    + present.
    + vm_compute. reflexivity.
    + exact repeating_generation.
Defined.

(** * Beyond the claims *)

(** ** The token as a function of the reader *)

(** X1. With at least [length] accepted bytes before the first failing read,
    [generateSecret] returns the characters of the alphabet at the indices
    that the first [length] of them give, in order; bytes that are not
    accepted, wherever they stand, and all that follows play no part. *)
Theorem generateSecret_from_usable (L : Z) (w : World) :
  0 ≤ L →
  (Z.to_nat L ≤ length (usable (rand_Reader w)))%nat →
  fst (generateSecret L w) =
    Ret (Ok (string_of_list_ascii
               (char_of <$> (candidate <$>
                   take (Z.to_nat L) (usable (rand_Reader w)))))).
Proof.
  intros HL Hus. rewrite generateSecret_usable by done.
  rewrite token_of_chars; [done|].
  apply candidates_in_range, Forall_take, usable_accepted.
Qed.

(** X2. With fewer than [length] accepted bytes before the first failing
    read, [generateSecret] returns no token, partial or other, but the error
    of the reader: that of the failing read, or the end of the input. *)
Theorem generateSecret_starved (L : Z) (w : World) :
  (length (usable (rand_Reader w)) < Z.to_nat L)%nat →
  fst (generateSecret L w) = Ret (Err (reader_error (rand_Reader w))).
Proof.
  intros Hus. unfold generateSecret, make_runes.
  rewrite decide_False by lia.
  unfold mbind, M_bind, mret, M_ret. cbv beta iota.
  rewrite length_replicate.
  pose proof (generateSecret_loop_starved (Z.to_nat L) 0
                (replicate (Z.to_nat L) 0) w Hus) as Hloop.
  destruct (generateSecret_loop _ _ _ _) as [r w']. simpl in Hloop.
  by subst r.
Qed.

(** X3. [generateSecret] leaves everything but the reader as it was, and of
    the reader it leaves an end: it takes bytes from the front and puts
    nothing back. *)
Theorem generateSecret_reads_only (L : Z) (w : World) :
  snd (generateSecret L w) =
    with_rand_Reader (rand_Reader (snd (generateSecret L w))) w ∧
  rand_Reader (snd (generateSecret L w)) `suffix_of` rand_Reader w.
Proof.
  split.
  - destruct (generateSecret_frame L w) as [rd Hrd].
    by rewrite (Hrd w eq_refl).
  - unfold generateSecret, make_runes. case_decide; [done|].
    unfold mbind, M_bind, mret, M_ret. cbv beta iota.
    pose proof (generateSecret_loop_suffix
                  (length (replicate (Z.to_nat L) 0)) 0
                  (replicate (Z.to_nat L) 0) w) as Hs.
    by destruct (generateSecret_loop _ _ _ _) as [[[b|e]|msg] w'].
Qed.

(** ** Tokens and draws *)

Lemma draw_char_inj n n' a :
  0 ≤ n < 62 → 0 ≤ n' < 62 →
  utf8_encode_rune (rune_of n) = [a] → utf8_encode_rune (rune_of n') = [a] →
  n = n'.
Proof.
  intros Hn Hn' He He'.
  destruct (draw_char n Hn) as (b & Hb & Hbe).
  destruct (draw_char n' Hn') as (b' & Hb' & Hbe').
  assert (b = a) as -> by congruence. assert (b' = a) as -> by congruence.
  pose proof (NoDup_lookup _ _ _ _ alphabet_chars_NoDup Hb Hb'). lia.
Qed.

Lemma token_of_inj ds : ∀ ds',
  Forall (λ n, 0 ≤ n < 62) ds → Forall (λ n, 0 ≤ n < 62) ds' →
  token_of ds = token_of ds' → ds = ds'.
Proof.
  induction ds as [|n ds IH]; intros [|n' ds'] Hds Hds' E; [done| | |].
  - apply Forall_cons in Hds' as [Hn' _].
    destruct (token_of_cons n' ds' Hn') as (a & _ & _ & Ht).
    by rewrite Ht in E.
  - apply Forall_cons in Hds as [Hn _].
    destruct (token_of_cons n ds Hn) as (a & _ & _ & Ht).
    by rewrite Ht in E.
  - apply Forall_cons in Hds as [Hn Hds].
    apply Forall_cons in Hds' as [Hn' Hds'].
    destruct (token_of_cons n ds Hn) as (a & Ha & _ & Ht).
    destruct (token_of_cons n' ds' Hn') as (a' & Ha' & _ & Ht').
    rewrite Ht, Ht' in E. injection E as -> E.
    f_equal; [by eapply draw_char_inj | by apply IH].
Qed.

(** X4. The token tells the draws: two runs of [generateSecret] that both
    find enough accepted bytes return the same token only if the indices
    that their accepted bytes give are the same, one by one. No two
    sequences of draws share a token. *)
Theorem generateSecret_token_injective (L : Z) (w1 w2 : World) :
  0 ≤ L →
  (Z.to_nat L ≤ length (usable (rand_Reader w1)))%nat →
  (Z.to_nat L ≤ length (usable (rand_Reader w2)))%nat →
  fst (generateSecret L w1) = fst (generateSecret L w2) →
  candidate <$> take (Z.to_nat L) (usable (rand_Reader w1)) =
  candidate <$> take (Z.to_nat L) (usable (rand_Reader w2)).
Proof.
  intros HL H1 H2 E.
  rewrite !generateSecret_usable in E by done.
  injection E as E.
  assert (R1 : Forall (λ n, 0 ≤ n < 62)
                 (candidate <$> take (Z.to_nat L) (usable (rand_Reader w1))))
    by apply candidates_in_range, Forall_take, usable_accepted.
  assert (R2 : Forall (λ n, 0 ≤ n < 62)
                 (candidate <$> take (Z.to_nat L) (usable (rand_Reader w2))))
    by apply candidates_in_range, Forall_take, usable_accepted.
  by apply token_of_inj.
Qed.

(** ** Edges of the handler *)

Lemma generateSecret_negative L w :
  L < 0 → generateSecret L w = (Panic "makeslice: len out of range", w).
Proof.
  intros H. unfold generateSecret, make_runes. by rewrite decide_True.
Qed.

Lemma generateSecret_zero w : generateSecret 0 w = (Ret (Ok EmptyString), w).
Proof. reflexivity. Qed.

(** X5. A negative [-secret-length] is not refused at start-up: the handler
    panics on the first record that asks for a value, in [make], before any
    byte is read and without any update. *)
Theorem negative_length_panics (s : Secret) (w : World) :
  secretLength w < 0 → pending s → scheme_fault w = None →
  fst (SecretAdded (ObjSecret s) w) = Panic "makeslice: len out of range" ∧
  rand_Reader (snd (SecretAdded (ObjSecret s) w)) = rand_Reader w ∧
  store_untouched w (snd (SecretAdded (ObjSecret s) w)).
Proof.
  intros HL Hp Hf.
  destruct (SecretAdded_pending s w Hp) as (a & val & _ & _ & Hrun).
  rewrite Hf, generateSecret_negative in Hrun by done.
  destruct Hrun as [l ->]. split; [done|]. split; [done|].
  apply store_untouched_glog.
Qed.

(** X6. With [-secret-length 0] the token is the empty string and no byte is
    read; the handler writes the empty value at the target key and marks the
    record as generated all the same. *)
Theorem zero_length_writes_empty (s : Secret) (w : World) (val : string) :
  secretLength w = 0 → generate_target s = Some val → pending s →
  is_Some (Data s) → scheme_fault w = None →
  ∃ u, reconcile s w = [u] ∧
       GoMap.get (Data u) val = Some [] ∧
       settled u ∧
       rand_Reader (snd (SecretAdded (ObjSecret s) w)) = rand_Reader w.
Proof.
  intros HL Hg Hp [d Hd] Hf.
  unfold generate_target in Hg.
  destruct (Annotations s) as [a|] eqn:Ha; [|done]. simpl in Hg.
  assert (Hgen : generateSecret (secretLength w) w = (Ret (Ok EmptyString), w))
    by (rewrite HL; apply generateSecret_zero).
  destruct (reconcile_regenerates s w a d val EmptyString w) as [_ Hu];
    try done.
  eexists. split; [exact Hu|]. split; [by simpl; rewrite lookup_insert_eq|].
  split; [by apply regenerated_settled|].
  destruct (SecretAdded_pending s w Hp) as (a' & val' & _ & _ & Hrun).
  rewrite Hf, Hgen, Hd in Hrun. destruct Hrun as [l ->].
  cbn [snd with_glog rand_Reader]. unfold Secrets_Update.
  by destruct (apiserver_Update _ _ w).
Qed.

(** X8. A record that asks for a value but has no Data map: the copy has
    none either, and the handler panics at the assignment to Data. The bytes
    of the token are read and lost, and no update is made. *)
Theorem nil_Data_panics (s : Secret) (w w2 : World) (tok : string) :
  pending s → Data s = None → scheme_fault w = None →
  generateSecret (secretLength w) w = (Ret (Ok tok), w2) →
  fst (SecretAdded (ObjSecret s) w) = Panic "assignment to entry in nil map" ∧
  rand_Reader (snd (SecretAdded (ObjSecret s) w)) = rand_Reader w2 ∧
  store_untouched w (snd (SecretAdded (ObjSecret s) w)).
Proof.
  intros Hp Hd Hf Hgen.
  destruct (SecretAdded_pending s w Hp) as (a & val & _ & _ & Hrun).
  rewrite Hf, Hgen, Hd in Hrun. destruct Hrun as [l ->].
  split; [done|]. split; [done|].
  pose proof (generateSecret_untouched (secretLength w) w) as Hst.
  rewrite Hgen in Hst.
  eapply store_untouched_trans; [apply Hst|apply store_untouched_glog].
Qed.

(** X7. When the record cannot be copied the handler gives up at once: it
    logs the error with the name of the record and returns; no byte is read,
    no update is made, and the world differs by log lines only. *)
Theorem copy_failure_abandons (s : Secret) (w : World) (e : error) :
  pending s → scheme_fault w = Some e →
  ∃ l, SecretAdded (ObjSecret s) w =
         (Ret tt,
          with_glog (mkLog ERROR "could not copy secret %s: %s"
                           [ArgS (Name s); ArgS e] :: l) w).
Proof.
  unfold pending, generate_target, generated_at, regenerate_requested.
  intros ([val Hg] & Hp) Hf.
  destruct (Annotations s) as [a|] eqn:Ha; [|done]. simpl in Hg, Hp.
  unfold SecretAdded. run. rewrite Ha. simpl. rewrite Hg.
  destruct (a !! SecretGeneratedAtAnnotation) as [t|] eqn:Hat;
    destruct (a !! SecretRegenerateAnnotation) as [r|] eqn:Hre;
    try (by destruct Hp as [?|[? ?]]); clear Hp;
    simpl; rewrite Hf; simpl;
    repeat (rewrite with_glog_glog); eexists; reflexivity.
Qed.

(** ** The calls of a run *)

(** The calls of any run: none, or one, which updates the record handled,
    in its own namespace, under its own name and version token. *)
Lemma SecretAdded_calls s w :
  new_calls w (snd (SecretAdded (ObjSecret s) w)) = [] ∨
  ∃ u, new_calls w (snd (SecretAdded (ObjSecret s) w)) =
         [mkCall (Namespace s) u (apiserver_Update (Namespace s) u w)] ∧
       Name u = Name s ∧ Namespace u = Namespace s ∧
       ResourceVersion u = ResourceVersion s.
Proof.
  destruct (SecretAdded_run s w) as [(_ & _ & Hc)|H].
  - left. by apply new_calls_same.
  - right. destruct H as (a & d & val & tok & w2 & _ & _ & _ & _ & _ &
                           Hgen & _ & l & Hw).
    exists (regenerated s a d val (time_Now w) tok).
    rewrite (new_calls_update _ _ _ _ _ _ Hgen Hw). split; [|done].
    destruct (generateSecret_frame (secretLength w) w) as [rd Hrd].
    rewrite (Hrd w eq_refl) in Hgen. by injection Hgen as _ <-.
Qed.

(** X9. Whatever the record and the world, a run of the handler makes at
    most one call to the server, and that call is an update of the record it
    was handed: in its namespace, under its name, with the version token of
    the snapshot. *)
Theorem one_update_of_own_record (s : Secret) (w : World) :
  (length (new_calls w (snd (SecretAdded (ObjSecret s) w))) ≤ 1)%nat ∧
  ∀ c, c ∈ new_calls w (snd (SecretAdded (ObjSecret s) w)) →
       call_namespace c = Namespace s ∧
       Name (call_body c) = Name s ∧
       Namespace (call_body c) = Namespace s ∧
       ResourceVersion (call_body c) = ResourceVersion s.
Proof.
  destruct (SecretAdded_calls s w) as [->|(u & -> & Hn & Hs & Hv)].
  - split; [simpl; lia|]. intros c Hc. by apply elem_of_nil in Hc.
  - split; [simpl; lia|]. intros c Hc.
    by apply list_elem_of_singleton in Hc as ->.
Qed.

(** ** Runs of the controller *)

(** A notification adds at most one call to the list of calls, and a
    deletion adds none. *)
Lemma handle_calls ev w :
  api_calls (snd (handle ev w)) = api_calls w ∨
  is_delivery ev = true ∧
  ∃ c, api_calls (snd (handle ev w)) = c :: api_calls w.
Proof.
  assert (H : ∀ obj,
    api_calls (snd (SecretAdded obj w)) = api_calls w ∨
    ∃ c, api_calls (snd (SecretAdded obj w)) = c :: api_calls w).
  { intros [s|kind]; [|by left].
    destruct (SecretAdded_run s w) as [(_ & _ & Hc)|Hr]; [by left|].
    right. destruct Hr as (a & d & val & tok & w2 & _ & _ & _ & _ & _ &
                            Hgen & _ & l & ->).
    eexists. cbn [snd with_glog api_calls]. rewrite Secrets_Update_calls.
    pose proof (generateSecret_untouched (secretLength w) w) as (_ & _ & Hc).
    rewrite Hgen in Hc. simpl in Hc. by rewrite Hc. }
  destruct ev as [obj|old new|obj]; simpl.
  - destruct (H obj) as [?|?]; [by left|by right].
  - unfold SecretUpdated. destruct (H new) as [?|?]; [by left|by right].
  - by left.
Qed.

(** X10. A run of the controller over any notifications keeps the calls
    made before, and adds at most one update per addition or update
    notified; deletions add none. *)
Theorem controller_calls_bounded (evs : list event) (w : World) :
  api_calls w `suffix_of` api_calls (snd (handle_all evs w)) ∧
  (length (api_calls (snd (handle_all evs w))) ≤
   length (api_calls w) + length (filter (λ ev, is_delivery ev = true) evs))%nat.
Proof.
  revert w. induction evs as [|ev evs IH]; intros w.
  - simpl. split; [done|lia].
  - cbn [handle_all]. unfold mbind, M_bind.
    pose proof (handle_calls ev w) as Hev.
    destruct (handle ev w) as [[[]|msg] w'] eqn:E; cbn [snd] in *.
    + destruct (IH w') as [Hs Hl]. rewrite filter_cons.
      destruct Hev as [Hc|(Hd & c & Hc)].
      * rewrite Hc in *. split; [done|]. case_decide; simpl; lia.
      * rewrite Hc in *. rewrite decide_True by done. split.
        -- etrans; [|exact Hs]. by apply suffix_cons_r.
        -- simpl in *. lia.
    + rewrite filter_cons. destruct Hev as [Hc|(Hd & c & Hc)].
      * rewrite Hc. split; [done|]. case_decide; simpl; lia.
      * rewrite Hc, decide_True by done. split.
        -- by apply suffix_cons_r.
        -- simpl. lia.
Qed.

Lemma handle_quiet ev w :
  quiet ev → ∃ l, handle ev w = (Ret tt, with_glog l w).
Proof.
  assert (H : ∀ s, quiet_record s →
                   ∃ l, SecretAdded (ObjSecret s) w = (Ret tt, with_glog l w)).
  { intros s [Hs|Hs].
    - exists (glog w). rewrite (SecretAdded_unmanaged s w Hs). by destruct w.
    - by apply SecretAdded_settled. }
  destruct ev as [[s|k]|old [s|k]|obj]; simpl; try done.
  - apply H.
  - apply H.
  - intros _. exists (glog w). unfold SecretDeleted. run. by destruct w.
Qed.

(** X11. Notifications that ask for nothing (deletions, and additions or
    updates of records that are not managed or are settled), in any number
    and order, are handled without a panic and change nothing but the log:
    no byte is read and no update is made. *)
Theorem quiet_run_changes_nothing (evs : list event) (w : World) :
  Forall quiet evs → ∃ l, handle_all evs w = (Ret tt, with_glog l w).
Proof.
  intros H. revert w. induction H as [|ev evs Hev _ IH]; intros w.
  - exists (glog w). simpl. run. by destruct w.
  - cbn [handle_all]. unfold mbind, M_bind.
    destruct (handle_quiet ev w Hev) as [l ->].
    destruct (IH (with_glog l w)) as [l' ->]. by exists l'.
Qed.

(** ** The handler and the server *)

Lemma apiserver_Update_accepts ns u w cur :
  api_fault w = None → etcd w !! (ns, Name u) = Some cur →
  ResourceVersion u = ResourceVersion cur →
  apiserver_Update ns u w =
    Ok (with_ResourceVersion (pretty (N.succ (revision w))) u).
Proof.
  intros Hf Hl Hv. unfold apiserver_Update. rewrite Hf, Hl.
  by rewrite decide_True.
Qed.


(** The world after a regeneration that the server accepts. *)
Lemma SecretAdded_accepted s w w2 tok cur a d val :
  pending s → Annotations s = Some a → Data s = Some d →
  a !! SecretGenerateAnnotation = Some val →
  scheme_fault w = None → api_fault w = None →
  etcd w !! (Namespace s, Name s) = Some cur →
  ResourceVersion cur = ResourceVersion s →
  generateSecret (secretLength w) w = (Ret (Ok tok), w2) →
  let stored := with_ResourceVersion (pretty (N.succ (revision w)))
                  (regenerated s a d val (time_Now w) tok) in
  fst (SecretAdded (ObjSecret s) w) = Ret tt ∧
  etcd (snd (SecretAdded (ObjSecret s) w)) =
    <[(Namespace s, Name s) := stored]> (etcd w) ∧
  revision (snd (SecretAdded (ObjSecret s) w)) = N.succ (revision w) ∧
  api_fault (snd (SecretAdded (ObjSecret s) w)) = None.
Proof.
  intros Hp Ha Hd Hg Hf Hapi Hl Hv Hgen stored.
  destruct (SecretAdded_pending s w Hp) as (a' & val' & Ha' & Hg' & Hrun).
  rewrite Hf, Hgen, Hd in Hrun. destruct Hrun as [l Hrun].
  assert (a' = a) as -> by congruence. assert (val' = val) as -> by congruence.
  cbn zeta in Hrun. rewrite Hrun. split; [done|].
  destruct (generateSecret_frame (secretLength w) w) as [rd Hrd].
  rewrite (Hrd w eq_refl) in Hgen. injection Hgen as _ <-.
  unfold Secrets_Update.
  rewrite (apiserver_Update_accepts _ _ _ cur); [|done|done|by symmetry].
  done.
Qed.

(** X12. The loop closes: when the server accepts the update of a record
    that asked for a value, it stores, under a new version token, a settled
    record whose Data holds the token at the target key; every other record
    it stores is as before; and the notification of that very update, when
    it comes back, is handled without a call or a change, whatever the old
    state it carries. *)
Theorem accepted_write_settles (s cur : Secret) (w w2 : World) (tok val : string) :
  generate_target s = Some val → pending s → is_Some (Data s) →
  scheme_fault w = None → api_fault w = None →
  etcd w !! (Namespace s, Name s) = Some cur →
  ResourceVersion cur = ResourceVersion s →
  generateSecret (secretLength w) w = (Ret (Ok tok), w2) →
  ∃ stored,
    etcd (snd (SecretAdded (ObjSecret s) w)) !! (Namespace s, Name s) =
      Some stored ∧
    (∀ k, k ≠ (Namespace s, Name s) →
          etcd (snd (SecretAdded (ObjSecret s) w)) !! k = etcd w !! k) ∧
    settled stored ∧
    GoMap.get (Data stored) val = Some (list_byte_of_string tok) ∧
    ∀ old, ∃ l,
      handle (Updated old (ObjSecret stored)) (snd (SecretAdded (ObjSecret s) w))
      = (Ret tt, with_glog l (snd (SecretAdded (ObjSecret s) w))).
Proof.
  intros Hg Hp [d Hd] Hf Hapi Hl Hv Hgen.
  unfold generate_target in Hg.
  destruct (Annotations s) as [a|] eqn:Ha; [|done]. simpl in Hg.
  destruct (SecretAdded_accepted s w w2 tok cur a d val)
    as (_ & He & _ & _); try done.
  eexists. rewrite He. split; [by rewrite lookup_insert_eq|].
  split; [by intros k Hk; rewrite lookup_insert_ne|].
  assert (Hs : settled (with_ResourceVersion (pretty (N.succ (revision w)))
                          (regenerated s a d val (time_Now w) tok))).
  { by apply (regenerated_settled s a d val (time_Now w) tok). }
  split; [exact Hs|]. split; [by simpl; rewrite lookup_insert_eq|].
  intros old. simpl. unfold SecretUpdated. by apply SecretAdded_settled.
Qed.


(** ** The log and the token *)

(** Whether the server accepts an update, and the error when it does not,
    depend on the name and the version token of the body alone. *)
Lemma apiserver_Update_kind ns u1 u2 w :
  Name u1 = Name u2 → ResourceVersion u1 = ResourceVersion u2 →
  (∃ e, apiserver_Update ns u1 w = Err e ∧ apiserver_Update ns u2 w = Err e) ∨
  (∃ s1 s2, apiserver_Update ns u1 w = Ok s1 ∧
            apiserver_Update ns u2 w = Ok s2).
Proof.
  intros Hn Hv. unfold apiserver_Update. rewrite Hn, Hv.
  destruct (api_fault w); [by left; eexists|].
  destruct (etcd w !! (ns, Name u2)); [|by left; eexists].
  case_decide; [by right; do 2 eexists | by left; eexists].
Qed.

Ltac frames H1 H2 :=
  repeat match goal with
  | |- context [generateSecret ?L ?W] =>
      first [ rewrite (H1 W eq_refl) | rewrite (H2 W eq_refl) ]
  end.

(** X14. The log does not depend on the bytes read: two runs on the same
    record, in worlds that differ by the reader only and in which the token
    generator succeeds, write the same log lines, whatever the two tokens
    are. The token is never logged. *)
Theorem log_ignores_token (s : Secret) (w w2 w2' : World)
    (r : list (option byte)) (tok tok' : string) :
  generateSecret (secretLength w) w = (Ret (Ok tok), w2) →
  generateSecret (secretLength w) (with_rand_Reader r w) =
    (Ret (Ok tok'), w2') →
  glog (snd (SecretAdded (ObjSecret s) (with_rand_Reader r w))) =
  glog (snd (SecretAdded (ObjSecret s) w)).
Proof.
  intros Hgen Hgen'.
  destruct (generateSecret_frame (secretLength w) w) as [rd Hrd].
  destruct (generateSecret_frame (secretLength w) (with_rand_Reader r w))
    as [rd' Hrd'].
  rewrite Hgen in Hrd. rewrite Hgen' in Hrd'. cbn [fst] in Hrd, Hrd'.
  clear Hgen Hgen'.
  unfold SecretAdded. run.
  destruct (Annotations s) as [a|] eqn:Ha; simpl; [|done].
  destruct (a !! SecretGenerateAnnotation) as [val|]; [|done].
  destruct (a !! SecretGeneratedAtAnnotation) as [t|] eqn:Hat;
    destruct (a !! SecretRegenerateAnnotation) as [re|] eqn:Hre; simpl;
    try done;
    (destruct (scheme_fault w) as [e|]; simpl; [done|]);
    frames Hrd Hrd'; simpl; rewrite ?Ha; simpl; rewrite ?Hre; simpl;
    (destruct (Data s) as [d|]; simpl; [|done]);
    unfold Secrets_Update; simpl; server_of w;
    match goal with
    | |- context [apiserver_Update ?n ?u1 w] =>
        match goal with
        | |- context [apiserver_Update n ?u2 w] =>
            lazymatch u2 with
            | u1 => fail
            | _ => destruct (apiserver_Update_kind n u1 u2 w eq_refl eq_refl)
                     as [(e & -> & ->)|(s1 & s2 & -> & ->)]
            end
        end
    end; reflexivity.
Qed.

(** X15. The handler updates and never creates: for a snapshot of a record
    that the server no longer stores, any update the run makes is refused,
    and the server still does not store the record. *)
Theorem deleted_record_not_recreated (s : Secret) (w : World) :
  api_fault w = None → etcd w !! (Namespace s, Name s) = None →
  etcd (snd (SecretAdded (ObjSecret s) w)) = etcd w ∧
  ∀ c, c ∈ new_calls w (snd (SecretAdded (ObjSecret s) w)) →
       call_reply c = Err "not found".
Proof.
  intros Hapi Hl.
  assert (Hnf : ∀ u rd, Name u = Name s →
    apiserver_Update (Namespace s) u (with_rand_Reader rd w) = Err "not found").
  { intros u rd Hn. unfold apiserver_Update.
    cbn [with_rand_Reader api_fault etcd]. by rewrite Hapi, Hn, Hl. }
  destruct (SecretAdded_run s w) as [(Hst & _ & Hc)|Hrun].
  - split; [done|]. intros c Hin. rewrite new_calls_same in Hin by done.
    by apply elem_of_nil in Hin.
  - destruct Hrun as (a & d & val & tok & w2 & _ & _ & _ & _ & _ & Hgen &
                      _ & l & Hw).
    rewrite (new_calls_update _ _ _ _ _ _ Hgen Hw). rewrite Hw.
    destruct (generateSecret_frame (secretLength w) w) as [rd Hrd].
    rewrite (Hrd w eq_refl) in Hgen. injection Hgen as _ <-.
    pose proof (Hnf (regenerated s a d val (time_Now w) tok) rd eq_refl) as E.
    split.
    + cbn [snd with_glog etcd].
      by destruct (Secrets_Update_rejected _ _ _ _ E) as [-> _].
    + intros c Hin. apply list_elem_of_singleton in Hin as ->. exact E.
Qed.

(** ** The properties at the example records *)

Lemma example_usable :
  (Z.to_nat 40 ≤ length (usable (rand_Reader example_world)))%nat.
Proof. vm_compute. lia. Qed.

Lemma noisy_usable :
  (Z.to_nat 40 ≤ length (usable (rand_Reader noisy_world)))%nat.
Proof. vm_compute. lia. Qed.

Lemma unfilled_pending : pending unfilled_secret.
Proof. split; [present | left; vm_compute; reflexivity]. Qed.

Lemma bare_pending : pending bare_secret.
Proof. split; [present | left; vm_compute; reflexivity]. Qed.

Lemma generateSecret_from_usable_witness :
  fst (generateSecret 40 example_world) =
    Ret (Ok (string_of_list_ascii
               (char_of <$> (candidate <$>
                   take (Z.to_nat 40) (usable (rand_Reader example_world)))))).
Proof.
  apply (generateSecret_from_usable 40 example_world).
  - lia.
  - exact example_usable.
Defined.

Lemma generateSecret_starved_witness :
  fst (generateSecret 40 dry_world) =
    Ret (Err (reader_error (rand_Reader dry_world))).
Proof.
  apply (generateSecret_starved 40 dry_world). vm_compute. lia.
Defined.

Lemma generateSecret_token_injective_witness :
  candidate <$> take (Z.to_nat 40) (usable (rand_Reader example_world)) =
  candidate <$> take (Z.to_nat 40) (usable (rand_Reader noisy_world)).
Proof.
  apply (generateSecret_token_injective 40 example_world noisy_world).
  - lia.
  - exact example_usable.
  - exact noisy_usable.
  - vm_compute. reflexivity.
Defined.

Lemma negative_length_panics_witness :
  fst (SecretAdded (ObjSecret unfilled_secret) negative_world) =
    Panic "makeslice: len out of range" ∧
  rand_Reader (snd (SecretAdded (ObjSecret unfilled_secret) negative_world)) =
    rand_Reader negative_world ∧
  store_untouched negative_world
    (snd (SecretAdded (ObjSecret unfilled_secret) negative_world)).
Proof.
  apply (negative_length_panics unfilled_secret negative_world).
  - vm_compute. reflexivity.
  - exact unfilled_pending.
  - vm_compute. reflexivity.
Defined.

Lemma zero_length_writes_empty_witness :
  ∃ u, reconcile unfilled_secret zero_world = [u] ∧
       GoMap.get (Data u) "token" = Some [] ∧
       settled u ∧
       rand_Reader (snd (SecretAdded (ObjSecret unfilled_secret) zero_world)) =
         rand_Reader zero_world.
Proof.
  apply (zero_length_writes_empty unfilled_secret zero_world "token").
  - vm_compute. reflexivity.
  - vm_compute. reflexivity.
  - exact unfilled_pending.
  - present.
  - vm_compute. reflexivity.
Defined.

Lemma copy_failure_abandons_witness :
  ∃ l, SecretAdded (ObjSecret unfilled_secret) uncopyable_world =
         (Ret tt,
          with_glog (mkLog ERROR "could not copy secret %s: %s"
                       [ArgS (Name unfilled_secret);
                        ArgS "no copier for the type"] :: l)
                    uncopyable_world).
Proof.
  apply (copy_failure_abandons unfilled_secret uncopyable_world
           "no copier for the type").
  - exact unfilled_pending.
  - vm_compute. reflexivity.
Defined.

Lemma nil_Data_panics_witness :
  fst (SecretAdded (ObjSecret bare_secret) example_world) =
    Panic "assignment to entry in nil map" ∧
  rand_Reader (snd (SecretAdded (ObjSecret bare_secret) example_world)) =
    rand_Reader drawn_world ∧
  store_untouched example_world
    (snd (SecretAdded (ObjSecret bare_secret) example_world)).
Proof.
  apply (nil_Data_panics bare_secret example_world drawn_world example_token).
  - exact bare_pending.
  - vm_compute. reflexivity.
  - vm_compute. reflexivity.
  - exact example_generation.
Defined.

Lemma quiet_run_changes_nothing_witness :
  ∃ l, handle_all quiet_events example_world =
         (Ret tt, with_glog l example_world).
Proof.
  apply (quiet_run_changes_nothing quiet_events example_world).
  unfold quiet_events.
  constructor; [exact I|].
  constructor; [left; vm_compute; reflexivity|].
  constructor; [right; exact filled_settled|].
  constructor.
Defined.

Lemma accepted_write_settles_witness :
  ∃ stored,
    etcd (snd (SecretAdded (ObjSecret unfilled_secret) example_world))
      !! (Namespace unfilled_secret, Name unfilled_secret) = Some stored ∧
    (∀ k, k ≠ (Namespace unfilled_secret, Name unfilled_secret) →
          etcd (snd (SecretAdded (ObjSecret unfilled_secret) example_world))
            !! k = etcd example_world !! k) ∧
    settled stored ∧
    GoMap.get (Data stored) "token" = Some (list_byte_of_string example_token) ∧
    ∀ old, ∃ l,
      handle (Updated old (ObjSecret stored))
             (snd (SecretAdded (ObjSecret unfilled_secret) example_world))
      = (Ret tt,
         with_glog l
           (snd (SecretAdded (ObjSecret unfilled_secret) example_world))).
Proof.
  apply (accepted_write_settles unfilled_secret unfilled_secret example_world
           drawn_world example_token "token").
  - vm_compute. reflexivity.
  - exact unfilled_pending.
  - present.
  - vm_compute. reflexivity.
  - vm_compute. reflexivity.
  - vm_compute. reflexivity.
  - reflexivity.
  - exact example_generation.
Defined.


Lemma log_ignores_token_witness :
  glog (snd (SecretAdded (ObjSecret unfilled_secret)
               (with_rand_Reader (replicate 40 (Some x40)) example_world))) =
  glog (snd (SecretAdded (ObjSecret unfilled_secret) example_world)).
Proof.
  apply (log_ignores_token unfilled_secret example_world drawn_world
           (with_rand_Reader [] example_world)
           (replicate 40 (Some x40)) example_token forty_a).
  - exact example_generation.
  - vm_compute. reflexivity.
Defined.

Lemma deleted_record_not_recreated_witness :
  etcd (snd (SecretAdded (ObjSecret unfilled_secret) forgetful_world)) =
    etcd forgetful_world ∧
  ∀ c, c ∈ new_calls forgetful_world
             (snd (SecretAdded (ObjSecret unfilled_secret) forgetful_world)) →
       call_reply c = Err "not found".
Proof.
  apply (deleted_record_not_recreated unfilled_secret forgetful_world).
  - vm_compute. reflexivity.
  - vm_compute. reflexivity.
Defined.
